(** * gobuild: the pure helpers and the start-up sequence of [Build]

    A shallow embedding of [gobuild.go] (package gobuild): the argument
    tokenizer [splitArgs]/[appendArg], the extension filter [getExts],
    the path expander [recursivePaths], the output naming [getAppName] and
    the body of [Build].

    Go strings are byte sequences; they are modelled as [list ascii]
    ([ascii] is an 8-bit byte).  The functions of Go's standard library the
    source calls ([strings.TrimSpace], [strings.Split], [filepath.Clean]
    ...) are modelled for a Unix host. *)

From Stdlib Require Import Ascii String List Arith Bool Lia NArith.
From stdpp Require Import gmap strings list fin_maps.
Import ListNotations.

Local Open Scope char_scope.
Local Open Scope list_scope.

(** ** Go strings *)

Definition gostring : Type := list ascii.

(** A string literal of the source. *)
Definition str (s : string) : gostring := list_ascii_of_string s.

(** [s[lo:hi]] for [lo <= hi <= len(s)] (outside that range Go panics; the
    callers below are shown to stay inside it). *)
Definition slice (s : gostring) (lo hi : nat) : gostring :=
  firstn (hi - lo) (skipn lo s).

(** The value of a byte. *)
Definition code (c : ascii) : N := N_of_ascii c.

(** ** strings.TrimSpace

    [TrimSpace] removes leading and trailing white space as defined by
    Unicode ([unicode.IsSpace]); the string is decoded as UTF-8, so a white
    space rune is one of the byte sequences below.  Bytes that do not form
    one of these sequences decode to a rune that is not white space. *)

(** '\t', '\n', '\v', '\f', '\r', ' ' *)
Definition isSpace1 (a : ascii) : bool :=
  let x := code a in ((9 <=? x) && (x <=? 13) || (x =? 32))%N.

(** U+0085 (C2 85) and U+00A0 (C2 A0) *)
Definition isSpace2 (a b : ascii) : bool :=
  let x := code a in let y := code b in
  ((x =? 194) && ((y =? 133) || (y =? 160)))%N.

(** U+1680 (E1 9A 80), U+2000..U+200A (E2 80 80..8A), U+2028, U+2029,
    U+202F (E2 80 A8, A9, AF), U+205F (E2 81 9F), U+3000 (E3 80 80) *)
Definition isSpace3 (a b c : ascii) : bool :=
  let x := code a in let y := code b in let z := code c in
  ((x =? 225) && (y =? 154) && (z =? 128)
   || (x =? 226) && (y =? 128)
      && ((128 <=? z) && (z <=? 138) || (z =? 168) || (z =? 169) || (z =? 175))
   || (x =? 226) && (y =? 129) && (z =? 159)
   || (x =? 227) && (y =? 128) && (z =? 128))%N.

Section Strip.
(** Recognisers of the one-, two- and three-byte sequences to remove. *)
Variable w1 : ascii -> bool.
Variable w2 : ascii -> ascii -> bool.
Variable w3 : ascii -> ascii -> ascii -> bool.

(** Drop recognised sequences from the front until none is left. *)
Fixpoint strip (s : gostring) : gostring :=
  match s with
  | [] => []
  | a :: s1 =>
      if w1 a then strip s1 else
      match s1 with
      | [] => s
      | b :: s2 =>
          if w2 a b then strip s2 else
          match s2 with
          | [] => s
          | c :: s3 => if w3 a b c then strip s3 else s
          end
      end
  end.
End Strip.

(** [strings.TrimLeftFunc(s, unicode.IsSpace)] *)
Definition TrimLeftSpace (s : gostring) : gostring :=
  strip isSpace1 isSpace2 isSpace3 s.

(** [strings.TrimRightFunc(s, unicode.IsSpace)]: the same scan from the end
    of the string, the sequences read backwards. *)
Definition TrimRightSpace (s : gostring) : gostring :=
  rev (strip isSpace1 (fun b a => isSpace2 a b) (fun c b a => isSpace3 a b c)
         (rev s)).

Definition TrimSpace (s : gostring) : gostring :=
  TrimRightSpace (TrimLeftSpace s).

(** ** The argument tokenizer *)

(** [func appendArg(args []string, arg string) []string] *)
Definition appendArg (args : list gostring) (arg : gostring) : list gostring :=
  let arg := TrimSpace arg in
  match arg with
  | [] => args
  | _ => args ++ [arg]
  end.

(** The variables of [splitArgs] that live across iterations of its loop. *)
Record scan : Type := Scan {
  ret : list gostring;
  state : ascii;          (* var state byte *)
  start : nat
}.

Definition quote : ascii := "034".
Definition zero : ascii := "000".

(** The body of the [for] loop of [splitArgs], at position [index] whose
    byte is [b]. *)
Definition splitArgs_step (args : gostring) (index : nat) (b : ascii)
    (s : scan) : scan :=
  if Ascii.eqb b " " then
    if Ascii.eqb (state s) quote then s
    else
      let s1 :=
        if negb (Ascii.eqb (state s) " ")
        then Scan (appendArg (ret s) (slice args (start s) index)) " " (start s)
        else s in
      Scan (ret s1) (state s1) (index + 1)
  else if Ascii.eqb b "=" then
    if Ascii.eqb (state s) quote then s
    else
      let s1 :=
        if negb (Ascii.eqb (state s) "=")
        then Scan (appendArg (ret s) (slice args (start s) index)) "=" (start s)
        else s in
      Scan (ret s1) zero (index + 1)
  else if Ascii.eqb b quote then
    if Ascii.eqb (state s) quote
    then Scan (appendArg (ret s) (slice args (start s) index)) zero (index + 1)
    else
      let r :=
        if negb (Nat.eqb (start s) index)
        then appendArg (ret s) (slice args (start s) index)
        else ret s in
      Scan r quote (index + 1)
  else
    if Ascii.eqb (state s) " " then Scan (ret s) zero index else s.

(** [for index = 0; index < len(args); index++]: [rest] is [args[index:]]. *)
Fixpoint splitArgs_loop (args rest : gostring) (index : nat) (s : scan) : scan :=
  match rest with
  | [] => s
  | b :: rest' => splitArgs_loop args rest' (S index) (splitArgs_step args index b s)
  end.

(** The state of the scan when the loop of [splitArgs args] exits. *)
Definition splitArgs_scan (args : gostring) : scan :=
  splitArgs_loop args args 0 (Scan [] zero 0).

(** [func splitArgs(args string) []string] *)
Definition splitArgs (args : gostring) : list gostring :=
  let s := splitArgs_scan args in
  if Nat.ltb (start s) (length args)
  then appendArg (ret s) (slice args (start s) (length args))
  else ret s.

(** ** strings.Split, strings.Join, strings.Index, strings.HasSuffix *)

(** [strings.Split(s, sep)] for a separator of one byte, the only way the
    source calls it: the pieces of [s] between the occurrences of [sep];
    [n] occurrences give [n + 1] pieces, so [Split "" sep] is [[""]]. *)
Fixpoint Split (s : gostring) (sep : ascii) : list gostring :=
  match s with
  | [] => [[]]
  | c :: s' =>
      if Ascii.eqb c sep then [] :: Split s' sep
      else match Split s' sep with
           | piece :: pieces => (c :: piece) :: pieces
           | [] => [[c]]
           end
  end.

(** [strings.Join(elems, sep)] *)
Fixpoint Join (elems : list gostring) (sep : gostring) : gostring :=
  match elems with
  | [] => []
  | [e] => e
  | e :: rest => e ++ sep ++ Join rest sep
  end.

(** [strings.HasPrefix(s, prefix)] *)
Fixpoint HasPrefix (s prefix : gostring) {struct prefix} : bool :=
  match prefix, s with
  | [], _ => true
  | p :: prefix', c :: s' => Ascii.eqb c p && HasPrefix s' prefix'
  | _ :: _, [] => false
  end.

(** [strings.HasSuffix(s, suffix)] *)
Definition HasSuffix (s suffix : gostring) : bool :=
  HasPrefix (rev s) (rev suffix).

(** [strings.Index(s, substr)]: the index of the first occurrence of
    [substr] in [s], or -1. *)
Fixpoint Index (s substr : gostring) : Z :=
  if HasPrefix s substr then 0%Z
  else match s with
       | [] => (-1)%Z
       | _ :: s' => let i := Index s' substr in
                    if (i <? 0)%Z then (-1)%Z else (i + 1)%Z
       end.

(** [strings.IndexByte(s, c)] *)
Definition IndexByte (s : gostring) (c : ascii) : Z := Index s [c].

(** ** The extension filter *)

(** The body of the loop of [getExts] for one piece [ext]. *)
Definition getExts_step (ret : list gostring) (ext : gostring) : list gostring :=
  let ext := TrimSpace ext in
  match ext with
  | [] => ret                                   (* len(ext) == 0: continue *)
  | c :: _ =>
      let ext := if negb (Ascii.eqb c ".") then str "." ++ ext else ext in
      ret ++ [ext]
  end.

(** [func getExts(extString string) []string] *)
Definition getExts (extString : gostring) : list gostring :=
  fold_left getExts_step (Split extString ",") [].

(** ** Errors *)

(** A value of Go's interface type [error]: [None] is [nil]. *)
Definition error : Type := option gostring.

(** ** path/filepath on a Unix host *)

Definition Separator : ascii := "/".

(** [filepath.IsAbs] *)
Definition IsAbs (path : gostring) : bool := HasPrefix path (str "/").

(** The output buffer of [filepath.Clean] and the index [dotdot] where
    backtracking over [..] has to stop. *)
Record cleanbuf : Type := CleanBuf { out : gostring; dotdot : nat }.

(** [out.w--; for out.w > dotdot && !os.IsPathSeparator(out.index(out.w)) { out.w-- }]
    started at [w]: the new write index. *)
Fixpoint backtrack (o : gostring) (dd w : nat) : nat :=
  match w with
  | 0 => 0
  | S w' =>
      if Nat.ltb dd w && negb (Ascii.eqb (nth w o Separator) Separator)
      then backtrack o dd w'
      else w
  end.

(** One path element [e] (the bytes between two separators) in the loop of
    [filepath.Clean]. *)
Definition Clean_elem (rooted : bool) (b : cleanbuf) (e : gostring) : cleanbuf :=
  if decide (e = []) then b                        (* empty path element *)
  else if decide (e = str ".") then b              (* . element *)
  else if decide (e = str "..") then               (* .. element *)
    if Nat.ltb (dotdot b) (length (out b))
    then CleanBuf (firstn (backtrack (out b) (dotdot b) (length (out b) - 1)) (out b))
                  (dotdot b)
    else if negb rooted
    then
      let o := (if Nat.ltb 0 (length (out b)) then out b ++ [Separator] else out b)
               ++ str ".." in
      CleanBuf o (length o)
    else b
  else                                             (* real path element *)
    let o :=
      if rooted && negb (Nat.eqb (length (out b)) 1)
         || negb rooted && negb (Nat.eqb (length (out b)) 0)
      then out b ++ [Separator] else out b in
    CleanBuf (o ++ e) (dotdot b).

(** [filepath.Clean]: the shortest path name equivalent to [path] by
    purely lexical processing. *)
Definition Clean (path : gostring) : gostring :=
  match path with
  | [] => str "."
  | c :: _ =>
      let rooted := Ascii.eqb c Separator in
      let init := if rooted then CleanBuf [Separator] 1 else CleanBuf [] 0 in
      let b := fold_left (Clean_elem rooted) (Split path Separator) init in
      match out b with
      | [] => str "."
      | o => o
      end
  end.

(** [filepath.Join] of two elements. *)
Definition Join2 (a b : gostring) : gostring :=
  match a, b with
  | [], [] => []
  | [], _ => Clean b
  | _, _ => Clean (a ++ [Separator] ++ b)
  end.

(** Remove the trailing separators of a path that is given reversed. *)
Fixpoint dropSeparators (r : gostring) : gostring :=
  match r with
  | c :: r' => if Ascii.eqb c Separator then dropSeparators r' else r
  | [] => []
  end.

(** The bytes before the first separator. *)
Fixpoint untilSeparator (s : gostring) : gostring :=
  match s with
  | c :: s' => if Ascii.eqb c Separator then [] else c :: untilSeparator s'
  | [] => []
  end.

(** [filepath.Base]: the last element of [path]. *)
Definition Base (path : gostring) : gostring :=
  match path with
  | [] => str "."
  | _ =>
      match rev (untilSeparator (dropSeparators (rev path))) with
      | [] => [Separator]                          (* it had only slashes *)
      | last => last
      end
  end.

(** The bytes from the first separator on. *)
Fixpoint fromSeparator (s : gostring) : gostring :=
  match s with
  | c :: s' => if Ascii.eqb c Separator then s else fromSeparator s'
  | [] => []
  end.

(** [filepath.Dir]: all but the last element of [path], cleaned. *)
Definition Dir (path : gostring) : gostring :=
  Clean (rev (fromSeparator (rev path))).

(** ** The host: what the calls into package os observe *)

(** What [os.Lstat] and [readDirNames] find at a path: a file, a directory
    with its entries (in the order [readDirNames] returns them, which is
    sorted by name), a directory whose entries cannot be read, or an entry
    on which [Lstat] fails. *)
#[warnings="-register-all"]
Inductive node : Type :=
| File
| Directory (entries : list (gostring * node))
| Unreadable (err : gostring)
| NoStat (err : gostring).

Record host : Type := Host {
  Getwd : gostring * error;        (* os.Getwd() *)
  GOEXE : gostring;                (* os.Getenv("GOEXE") *)
  tree : gostring -> node          (* the file tree found at a root path *)
}.

(** [filepath.Abs] *)
Definition Abs (h : host) (path : gostring) : gostring * error :=
  if IsAbs path then (Clean path, None)
  else
    let '(wd, err) := Getwd h in
    match err with
    | Some e => ([], Some e)
    | None => (Join2 wd path, None)
    end.

(** ** The path expander *)

(** The closure [walk] of [recursivePaths]: [ret] is the captured slice,
    [isDir] is [fi.IsDir()]. *)
Definition walk (ret : list gostring) (path : gostring) (isDir : bool)
    (err : error) : list gostring * error :=
  match err with
  | Some e => (ret, Some e)
  | None =>
      if isDir && (Index path (str "/.") <? 0)%Z
      then (ret ++ [path], None)
      else (ret, None)
  end.

(** The loop of [filepath.Walk] over the entries of the directory [path]:
    each entry is walked under the name [Join(path, name)]; the first error
    ends the walk. *)
Definition walkEntries
    (visit : gostring -> node -> list gostring -> list gostring * error)
    (path : gostring) : list (gostring * node) -> list gostring -> list gostring * error :=
  fix each (entries : list (gostring * node)) (ret : list gostring) :=
    match entries with
    | [] => (ret, None)
    | (name, child) :: entries' =>
        match visit (Join2 path name) child ret with
        | (ret, None) => each entries' ret
        | (ret, Some e) => (ret, Some e)
        end
    end.

(** [filepath.Walk] with the closure [walk] as its function, on the tree [n] found at
    [path]: the function is called on the entry itself, then the entries of
    a directory are walked in order. *)
Fixpoint Walk (path : gostring) (n : node) (ret : list gostring)
    : list gostring * error :=
  match n with
  | NoStat e => walk ret path false (Some e)
  | File => walk ret path false None
  | Unreadable e =>
      let '(ret, _) := walk ret path true None in
      walk ret path true (Some e)
  | Directory entries =>
      let '(ret, _) := walk ret path true None in
      walkEntries Walk path entries ret
  end.

(** The loop [for _, path := range paths] of [recursivePaths]. *)
Fixpoint recursivePaths_loop (h : host) (paths ret : list gostring)
    : list gostring * error :=
  match paths with
  | [] => (ret, None)
  | path :: paths' =>
      match Walk path (tree h path) ret with
      | (_, Some e) => ([], Some e)
      | (ret, None) => recursivePaths_loop h paths' ret
      end
  end.

(** [func recursivePaths(recursive bool, paths []string) ([]string, error)] *)
Definition recursivePaths (h : host) (recursive : bool) (paths : list gostring)
    : list gostring * error :=
  if negb recursive then (paths, None)
  else recursivePaths_loop h paths [].

(** ** Output naming *)

(** [func getAppName(outputName, wd string) (string, error)] *)
Definition getAppName (h : host) (outputName wd : gostring) : gostring * error :=
  let outputName := if decide (outputName = []) then Base wd else outputName in
  let goexe := GOEXE h in
  let outputName :=
    if negb (bool_decide (goexe = [])) && negb (HasSuffix outputName goexe)
    then outputName ++ goexe else outputName in
  let outputName :=
    if (IndexByte outputName "/" <? 0)%Z || (IndexByte outputName Separator <? 0)%Z
    then Join2 wd outputName else outputName in
  let '(outputName, err) := Abs h outputName in
  match err with
  | Some e => ([], Some e)
  | None => (outputName, None)
  end.

(** The wording of the naming rule in the specification, step by step. *)
Definition appName_spec (h : host) (outputName wd : gostring) : gostring * error :=
  let name := match outputName with [] => Base wd | _ => outputName end in
  let name := if HasSuffix name (GOEXE h) then name else name ++ GOEXE h in
  let name := if bool_decide (Separator ∈ name) then name else Join2 wd name in
  Abs h name.

(** ** Build *)

(** Modelled from the spec: the declarations of [Log] and of its kinds
    [LogTypeInfo], [LogTypeWarn] ... are in a file of the package that is
    not at hand; the specification names the kinds info, warning, success
    and error. *)
Inductive LogType : Type := LogTypeInfo | LogTypeWarn | LogTypeSuccess | LogTypeError.

(** The message of a log event of [Build]: the fixed text is left out, the
    value that [fmt.Sprint] formats into it is kept. *)
Inductive message : Type :=
| MsgAppArgs (appArgs : list gostring)
| MsgNoExts
| MsgExts (exts : list gostring)
| MsgAppName (appName : gostring).

Record Log : Type := MkLog { Type_ : LogType; Message : message }.

(** The fields of [builder] that [Build] sets ([logs] is the channel). *)
Record builder : Type := Builder {
  b_exts : list gostring;
  b_appName : gostring;
  b_wd : gostring;
  b_appArgs : list gostring;
  b_goCmdArgs : list gostring
}.

(** What [Build] does to the world around it, in order.  A send on [logs]
    is taken to complete (the receiver of the log events is ready), and the
    calls [b.watch(w)] and [go b.build()], whose code is in a file of the
    package that is not at hand, to return to [Build]. *)
Inductive event : Type :=
| Send (l : Log)                                   (* logs <- l *)
| InitWatcher (b : builder) (paths : list gostring) (* b.initWatcher(paths) *)
| Watch (b : builder)                              (* b.watch(w) *)
| GoBuild (b : builder)                            (* go b.build() *)
| CloseWatcher.                                    (* the deferred w.Close() *)

(** How a call ends: it returns an error value, it panics, or it waits for
    ever in a receive that no send can match. *)
Inductive outcome : Type :=
| Returned (err : error)
| Panicked
| Blocked.

(** The state a call of [Build] works on: the elements of the slice [dir]
    (shared with a caller that passes a slice), the events so far and the
    deferred calls. *)
Record world : Type := World {
  dir : list gostring;
  trace : list event;
  deferred : list event
}.

(** A computation either goes on with a value or ends the call. *)
Definition M (A : Type) : Type := world -> world * (A + outcome).

Definition pure {A} (a : A) : M A := fun w => (w, inl a).

Definition bind {A B} (m : M A) (k : A -> M B) : M B :=
  fun w => match m w with
           | (w', inl a) => k a w'
           | (w', inr o) => (w', inr o)
           end.

Declare Scope go_scope.
Delimit Scope go_scope with go.
Notation "x <- m ;; k" := (bind m (fun x => k))
  (at level 100, m at next level, right associativity) : go_scope.
Notation "m ;; k" := (bind m (fun _ => k))
  (at level 100, right associativity) : go_scope.

(** [return err]: the deferred calls run, last first, and the call ends. *)
Definition return_ {A} (err : error) : M A :=
  fun w => (World (dir w) (trace w ++ deferred w) [], inr (Returned err)).

Definition panic {A} : M A := fun w => (w, inr Panicked).

(** [<-make(chan bool)]: a receive from a channel nobody else holds. *)
Definition recvFresh {A} : M A := fun w => (w, inr Blocked).

Definition emit (e : event) : M unit :=
  fun w => (World (dir w) (trace w ++ [e]) (deferred w), inl tt).

Definition defer (e : event) : M unit :=
  fun w => (World (dir w) (trace w) (e :: deferred w), inl tt).

(** [len(dir)] and [dir[i]] *)
Definition lenDir : M nat := fun w => (w, inl (length (dir w))).

Definition getDir (i : nat) : M gostring :=
  fun w => match nth_error (dir w) i with
           | Some d => (w, inl d)
           | None => panic w                       (* index out of range *)
           end.

(** [dir[i] = v] *)
Definition setDir (i : nat) (v : gostring) : M unit :=
  fun w => if Nat.ltb i (length (dir w))
           then (World (<[i := v]> (dir w)) (trace w) (deferred w), inl tt)
           else panic w.                           (* index out of range *)

(** The slice [dir] itself, as passed on to [recursivePaths]. *)
Definition theDir : M (list gostring) := fun w => (w, inl (dir w)).

(** [errors.New("参数 dir 至少指定一个")] *)
Definition errNoDir : error := Some (str "参数 dir 至少指定一个").

(** Lines 57 to 64: the arguments of the compiler; [flags] lists the
    entries of the map in the order [range] visits them. *)
Definition goCmdArgs (appName : gostring) (flags : list (gostring * gostring))
    (mainFiles : gostring) : list gostring :=
  let args := [str "build"; str "-o"; appName] in
  let args :=
    fold_left (fun args kv => args ++ [str "-" ++ fst kv ++ str "flags"; snd kv])
              flags args in
  let args := args ++ [str "-v"] in
  if Nat.ltb 0 (length mainFiles) then args ++ [mainFiles] else args.

(** An order in which [for k, v := range m] may visit the entries of a map:
    each entry once, the order unspecified. *)
Definition range_of (m : gmap gostring gostring)
    (kvs : list (gostring * gostring)) : Prop :=
  kvs ≡ₚ map_to_list m.

Section Build.
(** [builder.initWatcher] is in a file of the package that is not at
    hand; all that [Build] uses of it is whether it fails. *)
Variable initWatcher : builder -> list gostring -> error.

Variable h : host.

Local Open Scope go_scope.

(** [func Build(logs, mainFiles, outputName, flags, exts, recursive,
    appArgs, dir...) error]; [flags] as in [goCmdArgs]. *)
Definition Build (mainFiles outputName : gostring)
    (flags : list (gostring * gostring)) (exts : gostring)
    (recursive : bool) (appArgs : gostring) : M unit :=
  n <- lenDir ;;
  if Nat.ltb n 1 then return_ errNoDir else
  d0 <- getDir 0 ;;
  let '(wd, err) := Abs h d0 in
  if bool_decide (err <> None) then return_ err else
  setDir 0 wd ;;
  let '(appName, err) := getAppName h outputName wd in
  if bool_decide (err <> None) then return_ err else
  let args := goCmdArgs appName flags mainFiles in
  let b := Builder (getExts exts) appName (Dir appName) (splitArgs appArgs) args in
  emit (Send (MkLog LogTypeInfo (MsgAppArgs (b_appArgs b)))) ;;
  (if Nat.eqb (length (b_exts b)) 0
   then emit (Send (MkLog LogTypeWarn MsgNoExts))
   else if Nat.ltb 0 (length (b_exts b))
   then emit (Send (MkLog LogTypeInfo (MsgExts (b_exts b))))
   else pure tt) ;;
  emit (Send (MkLog LogTypeInfo (MsgAppName (b_appName b)))) ;;
  paths <- theDir ;;
  let '(paths, err) := recursivePaths h recursive paths in
  if bool_decide (err <> None) then return_ err else
  emit (InitWatcher b paths) ;;
  let err := initWatcher b paths in
  if bool_decide (err <> None) then return_ err else
  defer CloseWatcher ;;
  emit (Watch b) ;;
  emit (GoBuild b) ;;
  recvFresh (A := unit) ;;
  return_ None.

(** A call of [Build] with the roots [roots] in [dir]. *)
Definition run_Build (mainFiles outputName : gostring)
    (flags : list (gostring * gostring)) (exts : gostring)
    (recursive : bool) (appArgs : gostring) (roots : list gostring)
    : world * (unit + outcome) :=
  Build mainFiles outputName flags exts recursive appArgs (World roots [] []).
End Build.

(** Whether an event belongs to watching (all but the log events do). *)
Definition watching (e : event) : bool :=
  match e with
  | Send _ => false
  | _ => true
  end.

(** The two arguments that one entry of the flags map contributes. *)
Definition flagArgs (kv : gostring * gostring) : list gostring :=
  [str "-" ++ fst kv ++ str "flags"; snd kv].

(** The log events of a successful start, in order. *)
Definition startup_logs (b : builder) : list event :=
  [Send (MkLog LogTypeInfo (MsgAppArgs (b_appArgs b)));
   match b_exts b with
   | [] => Send (MkLog LogTypeWarn MsgNoExts)
   | _ => Send (MkLog LogTypeInfo (MsgExts (b_exts b)))
   end;
   Send (MkLog LogTypeInfo (MsgAppName (b_appName b)))].

(** ** Predicates of the statements *)

(** A string with no white space at either end. *)
Definition trimmed (t : gostring) : Prop :=
  TrimLeftSpace t = t /\ TrimRightSpace t = t.

(** What [appendArg] lets into the list. *)
Definition token (t : gostring) : Prop := t <> [] /\ trimmed t.

(** An entry as [getExts] produces them: it starts with a dot, has no white
    space at its ends and no comma. *)
Definition ext_entry (e : gostring) : Prop :=
  (exists t, e = "." :: t) /\ trimmed e /\ "," ∉ e.

(** The buffer of a rooted path: it starts with the separator, where
    backtracking stops. *)
Definition rooted_buf (b : cleanbuf) : Prop :=
  dotdot b = 1 /\ exists o, out b = Separator :: o.

(** A path that the test of [walk] lets through. *)
Definition unhidden (path : gostring) : Prop :=
  (Index path (str "/.") <? 0)%Z = true.

(** What [splitArgs] does with its scan when the loop is over. *)
Definition flush (args : gostring) (s : scan) : list gostring :=
  if Nat.ltb (start s) (length args)
  then appendArg (ret s) (slice args (start s) (length args))
  else ret s.

(** What holds of the scan when the loop has read [done]: [start] is not
    past the index, [state] is one of three bytes, after a space [start] is
    the index, and neither the pending piece [done[start:]] nor a token
    holds a quote. *)
Definition scan_inv (done : gostring) (s : scan) : Prop :=
  start s <= length done
  /\ (state s = zero \/ state s = " " \/ state s = quote)
  /\ (state s = " " -> start s = length done)
  /\ (quote ∉ skipn (start s) done)
  /\ Forall (fun t => quote ∉ t) (ret s).

(** The bytes at which [splitArgs] cuts outside a quoted span. *)
Definition isSep (c : ascii) : bool := Ascii.eqb c " " || Ascii.eqb c "=".

(** The pieces of a string between its separators. *)
Fixpoint fields (s : gostring) : list gostring :=
  match s with
  | [] => [[]]
  | c :: s' =>
      if isSep c then [] :: fields s'
      else match fields s' with
           | piece :: pieces => (c :: piece) :: pieces
           | [] => [[c]]
           end
  end.

(** The scan of [post] seen from a string that has [off] bytes before it
    and the tokens [r0] already. *)
Definition shifted (off : nat) (r0 : list gostring) (s1 s2 : scan) : Prop :=
  ret s1 = r0 ++ ret s2 /\ start s1 = off + start s2 /\ state s1 = state s2.

(** A proper path element: not empty, not [.] or [..], without separator
    (the names of directory entries are such). *)
Definition real (e : gostring) : Prop :=
  e <> [] /\ e <> str "." /\ e <> str ".." /\ Separator ∉ e.

(** The absolute path with the elements [es]: [/e1/e2/...]. *)
Definition render (es : list gostring) : gostring :=
  Separator :: Join es [Separator].

(** What one element of a rooted path does to the elements kept so far. *)
Definition stack_elem (es : list gostring) (e : gostring) : list gostring :=
  if decide (e = []) then es
  else if decide (e = str ".") then es
  else if decide (e = str "..") then removelast es
  else es ++ [e].

(** The elements that remain of a rooted path. *)
Definition elements (path : gostring) : list gostring :=
  fold_left stack_elem (Split path Separator) [].

(** A tree that can be walked without error and whose entries have proper
    names. *)
Fixpoint plain_tree (n : node) : Prop :=
  match n with
  | File => True
  | Directory entries =>
      fold_right (fun e rest => real (fst e) /\ plain_tree (snd e) /\ rest)
                 True entries
  | Unreadable _ => False
  | NoStat _ => False
  end.

(** The directories of a tree, each as the list of its path elements, the
    tree being at [es]: a directory comes before what it holds, the entries
    in their order. *)
Fixpoint dirs (es : list gostring) (n : node) : list (list gostring) :=
  match n with
  | Directory entries =>
      es :: flat_map (fun e => dirs (es ++ [fst e]) (snd e)) entries
  | _ => []
  end.

(** No element starts with a dot. *)
Definition visible (es : list gostring) : bool :=
  forallb (fun e => negb (HasPrefix e (str "."))) es.

(** ** Example hosts *)

(** A checkout: a [.git] directory next to the sources. *)
Definition checkout : node :=
  Directory [(str ".git", Directory [(str "objects", Directory [])]);
             (str "main.go", File);
             (str "src", Directory [])].

(** A host whose working directory is [/home/u/proj], the checkout. *)
Definition host_proj : host :=
  Host (str "/home/u/proj", None) (str "") (fun _ => checkout).

(** The same on a platform whose executables end in [.exe]. *)
Definition host_exe : host :=
  Host (str "/home/u", None) (str ".exe") (fun _ => checkout).

(** A host on which [os.Getwd] fails (the working directory was removed). *)
Definition host_nowd : host :=
  Host ([], Some (str "getwd: no such file or directory")) (str "")
       (fun _ => checkout).

(** A host on which a directory under the root cannot be read. *)
Definition host_locked : host :=
  Host (str "/home/u/proj", None) (str "")
       (fun _ => Directory [(str "src", Unreadable (str "permission denied"))]).

(** A call of [Build] with the relative root [src] on the host without a
    working directory ([initWatcher] would succeed). *)
Definition call_nowd : world * (unit + outcome) :=
  run_Build (fun _ _ => None) host_nowd (str "") (str "") [] (str "go") false
            (str "") [str "src"].

(** A call of [Build] in the checkout, with the root [.], not recursive
    ([initWatcher] succeeds). *)
Definition call_proj : world * (unit + outcome) :=
  run_Build (fun _ _ => None) host_proj (str "") (str "") [] (str "go") false
            (str "") [str "."].

(** The builder of that call. *)
Definition builder_proj : builder :=
  Builder [str ".go"] (str "/home/u/proj/proj") (str "/home/u/proj") []
          [str "build"; str "-o"; str "/home/u/proj/proj"; str "-v"].

(** * Properties *)

(** ** strings.TrimSpace *)

Section StripFacts.
Variable w1 : ascii -> bool.
Variable w2 : ascii -> ascii -> bool.
Variable w3 : ascii -> ascii -> ascii -> bool.

Local Abbreviation strip := (strip w1 w2 w3).

(** What is left is a suffix of the string. *)
Lemma strip_suffix (s : gostring) : exists p, s = p ++ strip s.
Proof.
  remember (length s) as n eqn:Hn.
  revert s Hn. induction n as [n IH] using lt_wf_ind. intros s Hn.
  destruct s as [|a s1]; [exists []; reflexivity|]. simpl.
  destruct (w1 a).
  { destruct (IH (length s1)) with (s := s1) as [p Hp]; [simpl in Hn; lia|reflexivity|].
    exists (a :: p). simpl. congruence. }
  destruct s1 as [|b s2]; [exists []; reflexivity|].
  destruct (w2 a b).
  { destruct (IH (length s2)) with (s := s2) as [p Hp]; [simpl in Hn; lia|reflexivity|].
    exists (a :: b :: p). simpl. congruence. }
  destruct s2 as [|c s3]; [exists []; reflexivity|].
  destruct (w3 a b c); [|exists []; reflexivity].
  destruct (IH (length s3)) with (s := s3) as [p Hp]; [simpl in Hn; lia|reflexivity|].
  exists (a :: b :: c :: p). simpl. congruence.
Qed.

Lemma strip_length (s : gostring) : length (strip s) <= length s.
Proof.
  destruct (strip_suffix s) as [p Hp].
  rewrite Hp at 2. rewrite length_app. lia.
Qed.

(** Nothing more can be dropped from what is left. *)
Lemma strip_idem (s : gostring) : strip (strip s) = strip s.
Proof.
  remember (length s) as n eqn:Hn.
  revert s Hn. induction n as [n IH] using lt_wf_ind. intros s Hn.
  destruct s as [|a s1]; [reflexivity|]. simpl.
  destruct (w1 a) eqn:E1.
  { apply (IH (length s1)); [simpl in Hn; lia|reflexivity]. }
  destruct s1 as [|b s2]; [simpl; rewrite E1; reflexivity|].
  destruct (w2 a b) eqn:E2.
  { apply (IH (length s2)); [simpl in Hn; lia|reflexivity]. }
  destruct s2 as [|c s3]; [simpl; rewrite E1, E2; reflexivity|].
  destruct (w3 a b c) eqn:E3.
  { apply (IH (length s3)); [simpl in Hn; lia|reflexivity]. }
  simpl. rewrite E1, E2, E3. reflexivity.
Qed.

(** A string from which nothing is dropped begins with no recognised
    sequence. *)
Lemma strip_fixed_inv (a : ascii) (s : gostring) :
  strip (a :: s) = a :: s ->
  w1 a = false
  /\ (forall b s', s = b :: s' -> w2 a b = false)
  /\ (forall b c s', s = b :: c :: s' -> w3 a b c = false).
Proof.
  intros H.
  assert (L : forall t, length t < length (a :: s) -> strip t <> a :: s).
  { intros t Ht E. pose proof (strip_length t) as Hl. rewrite E in Hl. lia. }
  simpl in H.
  destruct (w1 a) eqn:E1.
  { exfalso. apply (L s); [simpl; lia|exact H]. }
  split; [reflexivity|]. split.
  - intros b s' ->. destruct (w2 a b) eqn:E2; [|reflexivity].
    exfalso. apply (L s'); [simpl; lia|exact H].
  - intros b c s' ->. destruct (w2 a b) eqn:E2.
    { exfalso. apply (L (c :: s')); [simpl; lia|exact H]. }
    destruct (w3 a b c) eqn:E3; [|reflexivity].
    exfalso. apply (L s'); [simpl; lia|exact H].
Qed.

Lemma strip_fixed_intro (a : ascii) (s : gostring) :
  w1 a = false ->
  (forall b s', s = b :: s' -> w2 a b = false) ->
  (forall b c s', s = b :: c :: s' -> w3 a b c = false) ->
  strip (a :: s) = a :: s.
Proof.
  intros H1 H2 H3. simpl. rewrite H1.
  destruct s as [|b s2]; [reflexivity|].
  rewrite (H2 b s2 eq_refl).
  destruct s2 as [|c s3]; [reflexivity|].
  rewrite (H3 b c s3 eq_refl). reflexivity.
Qed.

(** Cutting the end of such a string off leaves such a string. *)
Lemma strip_fixed_prefix (p q : gostring) :
  strip (p ++ q) = p ++ q -> strip p = p.
Proof.
  destruct p as [|a p]; [reflexivity|].
  simpl app. intros H. apply strip_fixed_inv in H as (H1 & H2 & H3).
  apply strip_fixed_intro; [exact H1| |].
  - intros b s' ->. apply (H2 b (s' ++ q)). reflexivity.
  - intros b c s' ->. apply (H3 b c (s' ++ q)). reflexivity.
Qed.

(** Adding a byte that ends no recognised sequence leaves such a string. *)
Lemma strip_fixed_snoc (r : gostring) (d : ascii) :
  strip r = r -> r <> [] ->
  (forall x, w2 x d = false) -> (forall x y, w3 x y d = false) ->
  strip (r ++ [d]) = r ++ [d].
Proof.
  intros H Hne Hd2 Hd3.
  destruct r as [|a r]; [congruence|].
  apply strip_fixed_inv in H as (H1 & H2 & H3).
  simpl app. apply strip_fixed_intro; [exact H1| |].
  - intros b s' E. destruct r as [|b' r']; simpl in E.
    + injection E as <- _. apply Hd2.
    + injection E as <- _. apply (H2 b' r'). reflexivity.
  - intros b c s' E. destruct r as [|b' [|c' r']]; simpl in E.
    + discriminate E.
    + injection E as <- <- _. apply Hd3.
    + injection E as <- <- _. apply (H3 b' c' r'). reflexivity.
Qed.
End StripFacts.

Lemma TrimRightSpace_prefix (s : gostring) : exists q, s = TrimRightSpace s ++ q.
Proof.
  unfold TrimRightSpace.
  destruct (strip_suffix isSpace1 (fun b a => isSpace2 a b)
              (fun c b a => isSpace3 a b c) (rev s)) as [p Hp].
  exists (rev p).
  rewrite <- rev_app_distr, <- Hp, rev_involutive. reflexivity.
Qed.

Lemma TrimSpace_trimmed (s : gostring) : trimmed (TrimSpace s).
Proof.
  unfold TrimSpace. split.
  - destruct (TrimRightSpace_prefix (TrimLeftSpace s)) as [q Hq].
    unfold TrimLeftSpace in *.
    apply strip_fixed_prefix with (q := q).
    rewrite <- Hq. apply strip_idem.
  - generalize (TrimLeftSpace s) as u. intros u.
    unfold TrimRightSpace. rewrite rev_involutive, strip_idem. reflexivity.
Qed.

Lemma trimmed_TrimSpace (t : gostring) : trimmed t -> TrimSpace t = t.
Proof. intros [Hl Hr]. unfold TrimSpace. rewrite Hl. exact Hr. Qed.

(** Trimming twice is trimming once. *)
Lemma TrimSpace_idem (s : gostring) : TrimSpace (TrimSpace s) = TrimSpace s.
Proof. apply trimmed_TrimSpace, TrimSpace_trimmed. Qed.

(** The result is a piece of the string. *)
Lemma TrimSpace_infix (s : gostring) : exists p q, s = p ++ TrimSpace s ++ q.
Proof.
  unfold TrimSpace.
  destruct (strip_suffix isSpace1 isSpace2 isSpace3 s) as [p Hp].
  destruct (TrimRightSpace_prefix (TrimLeftSpace s)) as [q Hq].
  exists p, q. rewrite <- Hq. exact Hp.
Qed.

(** A trimmed string stays trimmed behind a dot. *)
Lemma trimmed_dot (t : gostring) :
  trimmed t -> t <> [] -> trimmed ("." :: t).
Proof.
  intros [Hl Hr] Hne. split.
  - unfold TrimLeftSpace. apply strip_fixed_intro; [reflexivity| |]; intros; reflexivity.
  - unfold TrimRightSpace in *. simpl rev.
    rewrite strip_fixed_snoc.
    + rewrite rev_app_distr, rev_involutive. reflexivity.
    + apply (f_equal (@rev ascii)) in Hr. rewrite rev_involutive in Hr. exact Hr.
    + intros E. apply Hne. apply (f_equal (@rev ascii)) in E.
      rewrite rev_involutive in E. exact E.
    + intros x. reflexivity.
    + intros x y. reflexivity.
Qed.

(** ** The argument tokenizer *)

Lemma appendArg_tokens (args : list gostring) (arg : gostring) :
  Forall token args -> Forall token (appendArg args arg).
Proof.
  intros H. unfold appendArg.
  destruct (TrimSpace arg) as [|c t] eqn:E; [exact H|].
  apply Forall_app. split; [exact H|].
  constructor; [|constructor].
  split; [discriminate|]. rewrite <- E. apply TrimSpace_trimmed.
Qed.

Lemma splitArgs_step_tokens (args : gostring) (index : nat) (b : ascii) (s : scan) :
  Forall token (ret s) -> Forall token (ret (splitArgs_step args index b s)).
Proof.
  intros H. unfold splitArgs_step.
  repeat match goal with
         | |- context [if ?c then _ else _] => destruct c
         end; simpl; auto using appendArg_tokens.
Qed.

Lemma splitArgs_loop_tokens (args rest : gostring) (index : nat) (s : scan) :
  Forall token (ret s) -> Forall token (ret (splitArgs_loop args rest index s)).
Proof.
  revert index s. induction rest as [|b rest IH]; intros index s H; simpl.
  - exact H.
  - apply IH, splitArgs_step_tokens, H.
Qed.

Lemma splitArgs_tokens (args : gostring) : Forall token (splitArgs args).
Proof.
  unfold splitArgs, splitArgs_scan.
  pose proof (splitArgs_loop_tokens args args 0 (Scan [] zero 0)) as H.
  specialize (H ltac:(constructor)).
  destruct (Nat.ltb _ _); auto using appendArg_tokens.
Qed.

(** The slices [args[start:index]] of the loop are in range: [start] never
    passes the next index. *)
Lemma splitArgs_step_start (args : gostring) (index : nat) (b : ascii) (s : scan) :
  start s <= index -> start (splitArgs_step args index b s) <= S index.
Proof.
  intros H. unfold splitArgs_step.
  repeat match goal with
         | |- context [if ?c then _ else _] => destruct c
         end; simpl; lia.
Qed.

Lemma splitArgs_loop_start (args rest : gostring) (index : nat) (s : scan) :
  start s <= index ->
  start (splitArgs_loop args rest index s) <= index + length rest.
Proof.
  revert index s. induction rest as [|b rest IH]; intros index s H; simpl.
  - lia.
  - specialize (IH (S index) (splitArgs_step args index b s)
                  (splitArgs_step_start args index b s H)). lia.
Qed.

Lemma splitArgs_scan_start (args : gostring) :
  start (splitArgs_scan args) <= length args.
Proof.
  apply (splitArgs_loop_start args args 0 (Scan [] zero 0)). simpl. lia.
Qed.

Lemma splitArgs_loop_app (args l1 l2 : gostring) (index : nat) (s : scan) :
  splitArgs_loop args (l1 ++ l2) index s
  = splitArgs_loop args l2 (index + length l1) (splitArgs_loop args l1 index s).
Proof.
  revert index s. induction l1 as [|b l1 IH]; intros index s; simpl.
  - rewrite Nat.add_0_r. reflexivity.
  - rewrite IH. f_equal. lia.
Qed.

Lemma slice_app_l (pre post : gostring) (lo hi : nat) :
  hi <= length pre -> slice (pre ++ post) lo hi = slice pre lo hi.
Proof.
  intros H. unfold slice.
  destruct (Nat.le_gt_cases lo (length pre)) as [Hlo|Hlo].
  - rewrite skipn_app, firstn_app, length_skipn.
    replace (hi - lo - (length pre - lo)) with 0 by lia.
    simpl. rewrite app_nil_r. reflexivity.
  - replace (hi - lo) with 0 by lia. reflexivity.
Qed.

Lemma slice_app_r (pre post : gostring) :
  slice (pre ++ post) (length pre) (length (pre ++ post)) = post.
Proof.
  unfold slice. rewrite skipn_app, Nat.sub_diag, skipn_all. simpl.
  rewrite length_app. apply firstn_all2. lia.
Qed.

(** The loop reads [args] only before the current index. *)
Lemma splitArgs_step_ext (args args' : gostring) (index : nat) (b : ascii) (s : scan) :
  slice args (start s) index = slice args' (start s) index ->
  splitArgs_step args index b s = splitArgs_step args' index b s.
Proof. intros H. unfold splitArgs_step. rewrite H. reflexivity. Qed.

Lemma splitArgs_loop_prefix (pre post l : gostring) (index : nat) (s : scan) :
  index + length l <= length pre ->
  splitArgs_loop (pre ++ post) l index s = splitArgs_loop pre l index s.
Proof.
  revert index s. induction l as [|b l IH]; intros index s H; simpl in *.
  - reflexivity.
  - rewrite IH by lia. f_equal. apply splitArgs_step_ext, slice_app_l. lia.
Qed.

(** Inside a quoted span only a quote changes anything. *)
Lemma splitArgs_loop_quoted (args l : gostring) (index : nat) (s : scan) :
  state s = quote -> quote ∉ l -> splitArgs_loop args l index s = s.
Proof.
  revert index. induction l as [|b l IH]; intros index Hs Hl; simpl.
  - reflexivity.
  - assert (Hb : Ascii.eqb b quote = false).
    { apply Ascii.eqb_neq. intros ->. apply Hl. left. }
    assert (E : splitArgs_step args index b s = s).
    { unfold splitArgs_step. rewrite Hs, Hb. simpl.
      destruct (Ascii.eqb b " "); [reflexivity|].
      destruct (Ascii.eqb b "="); reflexivity. }
    rewrite E. apply IH; [exact Hs|].
    intros Hin. apply Hl. right. exact Hin.
Qed.

(** A quote that opens a span sets [start] behind itself. *)
Lemma splitArgs_step_opens (args : gostring) (index : nat) (s : scan) :
  state (splitArgs_step args index quote s) = quote ->
  start (splitArgs_step args index quote s) = index + 1.
Proof.
  unfold splitArgs_step. simpl.
  destruct (Ascii.eqb (state s) quote) eqn:E; simpl.
  - destruct s as [r st n]. simpl in *. apply Ascii.eqb_eq in E. subst st.
    discriminate.
  - reflexivity.
Qed.

(** C4: for every input string, every token that [splitArgs] returns is
    non-empty after trimming: no token is the empty string and no token
    consists of white space only (a token is even its own trimming). *)
Theorem splitArgs_tokens_nonempty (args : gostring) :
  Forall (fun t => t <> [] /\ TrimSpace t <> [] /\ TrimSpace t = t)
         (splitArgs args).
Proof.
  eapply List.Forall_impl; [|apply splitArgs_tokens].
  intros t [Hne Ht]. simpl.
  rewrite (trimmed_TrimSpace t Ht). auto.
Qed.

(** An empty quoted span and runs of separators leave no token behind. *)
Example splitArgs_empty_quotes :
  splitArgs [quote; quote] = []
  /\ splitArgs (str "a " ++ [quote; quote] ++ str "  = =  b")
     = [str "a"; str "b"].
Proof. split; vm_compute; reflexivity. Qed.

(** C5: the examples of the specification: [splitArgs " a  b "] is
    [["a"; "b"]]; on [k=] followed by the quoted span [v x] it is
    [["k"; "v x"]]; [splitArgs "a=b"] is [["a"; "b"]]; and when a quote
    opens a span that is never closed, all that follows it up to the end of
    the string is handed to [appendArg] as one argument. *)
Theorem splitArgs_examples :
  splitArgs (str " a  b ") = [str "a"; str "b"]
  /\ splitArgs (str "k=" ++ [quote] ++ str "v x" ++ [quote]) = [str "k"; str "v x"]
  /\ splitArgs (str "a=b") = [str "a"; str "b"]
  /\ forall pre rest : gostring,
       state (splitArgs_scan (pre ++ [quote])) = quote ->
       quote ∉ rest ->
       splitArgs (pre ++ quote :: rest)
       = appendArg (ret (splitArgs_scan (pre ++ [quote]))) rest.
Proof.
  split; [vm_compute; reflexivity|].
  split; [vm_compute; reflexivity|].
  split; [vm_compute; reflexivity|].
  intros pre rest Hst Hq.
  unfold splitArgs, splitArgs_scan in *.
  set (args := pre ++ quote :: rest).
  assert (Eargs : args = (pre ++ [quote]) ++ rest).
  { unfold args. rewrite <- app_assoc. reflexivity. }
  set (s := splitArgs_loop (pre ++ [quote]) (pre ++ [quote]) 0 (Scan [] zero 0)) in *.
  assert (Es : splitArgs_loop args args 0 (Scan [] zero 0) = s).
  { rewrite Eargs at 2. rewrite splitArgs_loop_app.
    rewrite Eargs.
    rewrite (splitArgs_loop_prefix (pre ++ [quote]) rest (pre ++ [quote]) 0)
      by (simpl; lia).
    fold s. apply splitArgs_loop_quoted; assumption. }
  rewrite Es.
  assert (Estart : start s = length (pre ++ [quote])).
  { unfold s in *. rewrite splitArgs_loop_app in *. simpl in *.
    rewrite (splitArgs_step_opens _ _ _ Hst), length_app. simpl. lia. }
  rewrite Estart, Eargs, slice_app_r.
  destruct rest as [|c rest].
  - rewrite app_nil_r, Nat.ltb_irrefl. reflexivity.
  - replace (Nat.ltb _ _) with true; [reflexivity|].
    symmetry. apply Nat.ltb_lt. rewrite !length_app. simpl. lia.
Qed.

Lemma splitArgs_examples_witness :
  splitArgs (str "a " ++ quote :: str "b c")
  = appendArg (ret (splitArgs_scan (str "a " ++ [quote]))) (str "b c")
  /\ splitArgs (str "a " ++ quote :: str "b c") = [str "a"; str "b c"].
Proof.
  split.
  - apply (proj2 (proj2 (proj2 splitArgs_examples)) (str "a ") (str "b c")).
    + vm_compute. reflexivity.
    + vm_compute. intros H. repeat (apply elem_of_cons in H as [H|H]; [discriminate H|]).
      apply elem_of_nil in H. exact H.
  - vm_compute. reflexivity.
Defined.

(** ** strings.Split and strings.Join *)

Lemma Split_nonempty (s : gostring) (sep : ascii) : Split s sep <> [].
Proof.
  destruct s as [|c s]; simpl; [discriminate|].
  destruct (Ascii.eqb c sep); [discriminate|].
  destruct (Split s sep); discriminate.
Qed.

(** No piece contains the separator. *)
Lemma Split_pieces (s : gostring) (sep : ascii) :
  Forall (fun piece => sep ∉ piece) (Split s sep).
Proof.
  induction s as [|c s IH]; simpl.
  - constructor; [|constructor]. apply not_elem_of_nil.
  - destruct (Ascii.eqb c sep) eqn:E.
    + constructor; [apply not_elem_of_nil|exact IH].
    + destruct (Split s sep) as [|piece pieces].
      * constructor; [|constructor].
        apply Ascii.eqb_neq in E. intros H.
        apply elem_of_cons in H as [H|H]; [congruence|].
        apply elem_of_nil in H. exact H.
      * inversion IH as [|? ? Hp Hps]; subst.
        constructor; [|exact Hps].
        apply Ascii.eqb_neq in E. intros H.
        apply elem_of_cons in H as [H|H]; [congruence|auto].
Qed.

Lemma Split_app_sep (e rest : gostring) (sep : ascii) :
  sep ∉ e -> Split (e ++ sep :: rest) sep = e :: Split rest sep.
Proof.
  induction e as [|c e IH]; intros H; simpl.
  - rewrite Ascii.eqb_refl. reflexivity.
  - assert (Hc : Ascii.eqb c sep = false).
    { apply Ascii.eqb_neq. intros ->. apply H. left. }
    rewrite Hc, IH; [reflexivity|].
    intros Hin. apply H. right. exact Hin.
Qed.

Lemma Split_no_sep (e : gostring) (sep : ascii) : sep ∉ e -> Split e sep = [e].
Proof.
  induction e as [|c e IH]; intros H; simpl.
  - reflexivity.
  - assert (Hc : Ascii.eqb c sep = false).
    { apply Ascii.eqb_neq. intros ->. apply H. left. }
    rewrite Hc, IH; [reflexivity|].
    intros Hin. apply H. right. exact Hin.
Qed.

(** Splitting what was joined gives the elements back. *)
Lemma Split_Join (elems : list gostring) (sep : ascii) :
  elems <> [] -> Forall (fun e => sep ∉ e) elems ->
  Split (Join elems [sep]) sep = elems.
Proof.
  induction elems as [|e elems IH]; intros Hne H; [congruence|].
  inversion H as [|? ? He Hes]; subst.
  destruct elems as [|e' elems].
  - simpl. apply Split_no_sep, He.
  - change (Join (e :: e' :: elems) [sep]) with (e ++ sep :: Join (e' :: elems) [sep]).
    rewrite Split_app_sep by exact He.
    rewrite IH; [reflexivity|discriminate|exact Hes].
Qed.

(** ** The extension filter *)

Lemma TrimSpace_not_elem (c : ascii) (s : gostring) : c ∉ s -> c ∉ TrimSpace s.
Proof.
  intros H Hin. apply H.
  destruct (TrimSpace_infix s) as (p & q & E). rewrite E.
  apply elem_of_app. right. apply elem_of_app. left. exact Hin.
Qed.

Lemma getExts_step_entries (ret : list gostring) (piece : gostring) :
  "," ∉ piece -> Forall ext_entry ret -> Forall ext_entry (getExts_step ret piece).
Proof.
  intros Hc H. unfold getExts_step.
  pose proof (TrimSpace_trimmed piece) as Ht.
  pose proof (TrimSpace_not_elem _ _ Hc) as Hn.
  destruct (TrimSpace piece) as [|c t] eqn:E; [exact H|].
  apply Forall_app. split; [exact H|]. constructor; [|constructor].
  destruct (Ascii.eqb c ".") eqn:Ec; simpl.
  - apply Ascii.eqb_eq in Ec. subst c.
    split; [exists t; reflexivity|]. split; assumption.
  - split; [exists (c :: t); reflexivity|]. split.
    + apply trimmed_dot; [exact Ht|discriminate].
    + intros Hin. apply elem_of_cons in Hin as [Hin|Hin]; [discriminate Hin|auto].
Qed.

Lemma getExts_entries (extString : gostring) : Forall ext_entry (getExts extString).
Proof.
  unfold getExts.
  pose proof (Split_pieces extString ",") as Hp.
  assert (H0 : Forall ext_entry []) by constructor.
  revert H0. generalize (@nil gostring) as acc.
  induction Hp as [|p ps Hx Hps IH]; intros acc Hacc; simpl.
  - exact Hacc.
  - apply IH, getExts_step_entries; assumption.
Qed.

(** Every entry of the output starts with a dot. *)
Lemma getExts_dot_prefixed (extString : gostring) :
  Forall (fun e => exists t, e = "." :: t) (getExts extString).
Proof.
  eapply List.Forall_impl; [|apply getExts_entries].
  intros e [H _]. exact H.
Qed.

(** An entry passes through the loop body unchanged. *)
Lemma getExts_step_entry (ret : list gostring) (e : gostring) :
  ext_entry e -> getExts_step ret e = ret ++ [e].
Proof.
  intros ([t ->] & Ht & _). unfold getExts_step.
  rewrite (trimmed_TrimSpace _ Ht). reflexivity.
Qed.

Lemma getExts_fold_entries (exts acc : list gostring) :
  Forall ext_entry exts -> fold_left getExts_step exts acc = acc ++ exts.
Proof.
  intros H. revert acc. induction H as [|e exts He Hes IH]; intros acc; simpl.
  - rewrite app_nil_r. reflexivity.
  - rewrite getExts_step_entry by exact He.
    rewrite IH, <- app_assoc. reflexivity.
Qed.

(** C6: the extension filter is idempotent on its own output: for every
    input, filtering the comma-joined result of [getExts] gives that result
    again; and [getExts " go, .tpl ,, html"] is [[".go"; ".tpl"; ".html"]],
    [getExts ""] is the empty list. *)
Theorem getExts_idempotent :
  (forall extString : gostring,
     getExts (Join (getExts extString) (str ",")) = getExts extString)
  /\ getExts (str " go, .tpl ,, html") = [str ".go"; str ".tpl"; str ".html"]
  /\ getExts (str "") = [].
Proof.
  split; [|split; vm_compute; reflexivity].
  intros extString.
  pose proof (getExts_entries extString) as H.
  destruct (getExts extString) as [|e exts] eqn:E; [reflexivity|].
  unfold getExts at 1. change (str ",") with [","].
  rewrite Split_Join.
  - apply (getExts_fold_entries (e :: exts) []). exact H.
  - discriminate.
  - eapply List.Forall_impl; [|exact H]. intros x (_ & _ & Hx). exact Hx.
Qed.

(** C1: a segment [*] of the input does not come out as the wildcard entry
    [*]: [getExts] puts a dot in front of it as in front of any other
    segment, so the entry [*], which the documentation of [Build] reserves
    for "watch every file", is in no output of the filter. *)
Theorem getExts_wildcard_lost :
  getExts (str "*") = [str ".*"]
  /\ getExts (str "go,*") = [str ".go"; str ".*"]
  /\ forall extString : gostring, str "*" ∉ getExts extString.
Proof.
  split; [vm_compute; reflexivity|]. split; [vm_compute; reflexivity|].
  intros extString Hin.
  pose proof (getExts_dot_prefixed extString) as H.
  rewrite List.Forall_forall in H.
  apply list_elem_of_In in Hin.
  destruct (H _ Hin) as [t Ht]. discriminate Ht.
Qed.

(** ** strings.IndexByte and strings.HasSuffix *)

Lemma IndexByte_cons (a : ascii) (s : gostring) (c : ascii) :
  IndexByte (a :: s) c
  = if Ascii.eqb a c then 0%Z
    else if (IndexByte s c <? 0)%Z then (-1)%Z else (IndexByte s c + 1)%Z.
Proof. unfold IndexByte. simpl. rewrite andb_true_r. reflexivity. Qed.

Lemma IndexByte_ge (s : gostring) (c : ascii) : (-1 <= IndexByte s c)%Z.
Proof.
  induction s as [|a s IH]; [unfold IndexByte; simpl; lia|].
  rewrite IndexByte_cons.
  destruct (Ascii.eqb a c); [lia|].
  destruct (IndexByte s c <? 0)%Z eqn:E; [lia|].
  apply Z.ltb_ge in E. lia.
Qed.

(** [IndexByte] is negative exactly when the byte is not in the string. *)
Lemma IndexByte_neg (s : gostring) (c : ascii) :
  (IndexByte s c <? 0)%Z = negb (bool_decide (c ∈ s)).
Proof.
  induction s as [|a s IH].
  - rewrite bool_decide_eq_false_2; [reflexivity|apply not_elem_of_nil].
  - rewrite IndexByte_cons. destruct (Ascii.eqb a c) eqn:E.
    + apply Ascii.eqb_eq in E. subst a.
      rewrite bool_decide_eq_true_2; [reflexivity|left].
    + apply Ascii.eqb_neq in E.
      destruct (IndexByte s c <? 0)%Z eqn:En.
      * symmetry in IH. apply negb_true_iff, bool_decide_eq_false in IH.
        rewrite bool_decide_eq_false_2; [reflexivity|].
        intros H. apply elem_of_cons in H as [H|H]; [congruence|auto].
      * symmetry in IH. apply negb_false_iff, bool_decide_eq_true in IH.
        rewrite bool_decide_eq_true_2; [|right; exact IH].
        apply Z.ltb_ge in En. apply Z.ltb_ge. lia.
Qed.

Lemma HasSuffix_empty (s : gostring) : HasSuffix s [] = true.
Proof. unfold HasSuffix. simpl. destruct (rev s); reflexivity. Qed.

(** ** filepath.Clean keeps a rooted path rooted *)

Lemma backtrack_ge (o : gostring) (dd w : nat) : dd <= w -> dd <= backtrack o dd w.
Proof.
  induction w as [|w IH]; intros H; simpl; [exact H|].
  destruct (Nat.ltb dd (S w)) eqn:E; simpl; [|exact H].
  destruct (negb _); [|exact H].
  apply IH. apply Nat.ltb_lt in E. lia.
Qed.

Lemma Clean_elem_rooted (b : cleanbuf) (e : gostring) :
  rooted_buf b -> rooted_buf (Clean_elem true b e).
Proof.
  intros [Hd [o Ho]]. unfold Clean_elem.
  destruct (decide (e = [])); [split; eauto|].
  destruct (decide (e = str ".")); [split; eauto|].
  destruct (decide (e = str "..")).
  - destruct (Nat.ltb (dotdot b) (length (out b))) eqn:E; simpl; [|split; eauto].
    split; [exact Hd|]. simpl.
    apply Nat.ltb_lt in E.
    pose proof (backtrack_ge (out b) (dotdot b) (length (out b) - 1)) as Hb.
    specialize (Hb ltac:(lia)).
    destruct (backtrack (out b) (dotdot b) (length (out b) - 1)) as [|w]; [lia|].
    rewrite Ho. simpl. eauto.
  - simpl. split; [exact Hd|]. rewrite Ho.
    destruct (negb (Nat.eqb (length (Separator :: o)) 1) || false); simpl; eauto.
Qed.

Lemma fold_Clean_elem_rooted (es : list gostring) (b : cleanbuf) :
  rooted_buf b -> rooted_buf (fold_left (Clean_elem true) es b).
Proof.
  revert b. induction es as [|e es IH]; intros b Hb; simpl; [exact Hb|].
  apply IH, Clean_elem_rooted, Hb.
Qed.

Lemma Clean_rooted (path : gostring) : IsAbs path = true -> IsAbs (Clean path) = true.
Proof.
  destruct path as [|c path]; [discriminate|].
  intros Hc. unfold IsAbs in Hc. simpl in Hc. rewrite andb_true_r in Hc.
  apply Ascii.eqb_eq in Hc. subst c.
  assert (E : Clean ("/" :: path)
              = match out (fold_left (Clean_elem true) (Split ("/" :: path) Separator)
                             (CleanBuf [Separator] 1)) with
                | [] => str "."
                | o => o
                end) by reflexivity.
  rewrite E.
  destruct (fold_Clean_elem_rooted (Split ("/" :: path) Separator)
              (CleanBuf [Separator] 1)) as [_ [o Ho]].
  { split; simpl; eauto. }
  rewrite Ho. reflexivity.
Qed.

(** [filepath.Abs] gives an absolute path when the working directory that
    [os.Getwd] reports is one. *)
Lemma Abs_IsAbs (h : host) (path name : gostring) :
  IsAbs (fst (Getwd h)) = true -> Abs h path = (name, None) -> IsAbs name = true.
Proof.
  intros Hwd. unfold Abs.
  destruct (IsAbs path) eqn:E.
  - intros [= <-]. apply Clean_rooted, E.
  - destruct (Getwd h) as [wd [e|]]; [discriminate|].
    intros [= <-]. simpl in Hwd.
    destruct wd as [|c wd]; [discriminate|].
    unfold Join2. apply Clean_rooted. exact Hwd.
Qed.

(** When [filepath.Abs] fails its first result is the empty string, which
    is what [getAppName] returns then. *)
Lemma Abs_result (h : host) (path : gostring) :
  (let '(outputName, err) := Abs h path in
   match err with
   | Some e => ([], Some e)
   | None => (outputName, None)
   end) = Abs h path.
Proof.
  unfold Abs. destruct (IsAbs path); [reflexivity|].
  destruct (Getwd h) as [wd [e|]]; reflexivity.
Qed.

(** C3: output naming: for every [outputName] and primary root [wd],
    [getAppName] computes what the specification words: an empty name is
    replaced by the base name of [wd]; the executable suffix of the
    environment is appended unless the name already ends with it; a name
    without a path separator is resolved relative to [wd]; the result is
    resolved by [filepath.Abs], and is an absolute path whenever that
    succeeds (the working directory of the process being an absolute
    path). *)
Theorem getAppName_naming (h : host) (outputName wd : gostring) :
  getAppName h outputName wd = appName_spec h outputName wd
  /\ (IsAbs (fst (Getwd h)) = true ->
      forall name, getAppName h outputName wd = (name, None) -> IsAbs name = true).
Proof.
  assert (E : getAppName h outputName wd = appName_spec h outputName wd).
  { unfold getAppName, appName_spec.
    set (n1 := if decide (outputName = []) then Base wd else outputName).
    assert (E1 : match outputName with [] => Base wd | _ => outputName end = n1).
    { unfold n1. destruct outputName; reflexivity. }
    rewrite E1.
    set (n2 := if negb (bool_decide (GOEXE h = [])) && negb (HasSuffix n1 (GOEXE h))
               then n1 ++ GOEXE h else n1).
    assert (E2 : (if HasSuffix n1 (GOEXE h) then n1 else n1 ++ GOEXE h) = n2).
    { unfold n2. destruct (GOEXE h) as [|c g] eqn:Eg.
      - rewrite HasSuffix_empty. reflexivity.
      - rewrite bool_decide_eq_false_2 by discriminate. simpl.
        destruct (HasSuffix n1 (c :: g)); reflexivity. }
    rewrite E2.
    change "/" with Separator. rewrite orb_diag, IndexByte_neg.
    match goal with
    | |- context [negb (bool_decide ?P)] => destruct (bool_decide P)
    end; simpl; apply Abs_result. }
  split; [exact E|].
  intros Hwd name Hn. rewrite E in Hn. unfold appName_spec in Hn.
  eapply Abs_IsAbs; eassumption.
Qed.

Lemma getAppName_naming_witness :
  getAppName host_exe (str "") (str "/home/u/proj")
  = (str "/home/u/proj/proj.exe", None)
  /\ IsAbs (str "/home/u/proj/proj.exe") = true.
Proof.
  split.
  - vm_compute. reflexivity.
  - apply (proj2 (getAppName_naming host_exe (str "") (str "/home/u/proj"))).
    + reflexivity.
    + vm_compute. reflexivity.
Defined.

(** ** The path expander *)

(** Without the recursive flag the roots come back as they are. *)
Lemma recursivePaths_flat (h : host) (paths : list gostring) :
  recursivePaths h false paths = (paths, None).
Proof. reflexivity. Qed.

(** What the expander does collect: every walk only adds paths without the
    substring [/.] to the result. *)
Lemma walk_adds (ret : list gostring) (path : gostring) (isDir : bool) (err : error) :
  exists added, fst (walk ret path isDir err) = ret ++ added
                /\ Forall unhidden added.
Proof.
  unfold walk. destruct err as [e|].
  - exists []. rewrite app_nil_r. split; [reflexivity|constructor].
  - destruct (isDir && (Index path (str "/.") <? 0)%Z) eqn:E.
    + exists [path]. split; [reflexivity|].
      apply andb_true_iff in E as [_ E]. constructor; [exact E|constructor].
    + exists []. rewrite app_nil_r. split; [reflexivity|constructor].
Qed.

Lemma Walk_tree_adds (n : node) :
  forall (path : gostring) (ret : list gostring),
  exists added, fst (Walk path n ret) = ret ++ added /\ Forall unhidden added.
Proof.
  revert n. fix IH 1. intros n path ret.
  destruct n as [|entries|e|e].
  - apply walk_adds.
  - change (Walk path (Directory entries) ret)
      with (let '(r, _) := walk ret path true None in
            walkEntries Walk path entries r).
    destruct (walk_adds ret path true None) as (a0 & E0 & H0).
    destruct (walk ret path true None) as [ret0 err0]. simpl in E0. subst ret0.
    assert (Hall : forall ret1, exists added,
               fst (walkEntries Walk path entries ret1) = ret1 ++ added
               /\ Forall unhidden added).
    { induction entries as [|[name child] entries IHe]; intros ret1.
      - exists []. rewrite app_nil_r. split; [reflexivity|constructor].
      - simpl.
        destruct (IH child (Join2 path name) ret1) as (a1 & E1 & H1).
        destruct (Walk (Join2 path name) child ret1) as [ret2 [e2|]];
          simpl in E1; subst ret2.
        + exists a1. split; [reflexivity|exact H1].
        + destruct (IHe (ret1 ++ a1)) as (a2 & E2 & H2).
          exists (a1 ++ a2). rewrite E2, <- app_assoc. split; [reflexivity|].
          apply Forall_app. split; assumption. }
    destruct (Hall (ret ++ a0)) as (a1 & E1 & H1).
    exists (a0 ++ a1). rewrite E1, <- app_assoc. split; [reflexivity|].
    apply Forall_app. split; assumption.
  - change (Walk path (Unreadable e) ret)
      with (let '(r, _) := walk ret path true None in
            walk r path true (Some e)).
    destruct (walk_adds ret path true None) as (a0 & E0 & H0).
    destruct (walk ret path true None) as [ret0 err0]. simpl in E0. subst ret0.
    exists a0. split; [reflexivity|exact H0].
  - exists []. rewrite app_nil_r. split; [reflexivity|constructor].
Qed.

Lemma recursivePaths_loop_unhidden (h : host) (paths acc : list gostring) :
  Forall unhidden acc -> Forall unhidden (fst (recursivePaths_loop h paths acc)).
Proof.
  revert acc. induction paths as [|path paths IH]; intros acc Hacc; simpl.
  - exact Hacc.
  - destruct (Walk_tree_adds (tree h path) path acc) as (added & E & Ha).
    destruct (Walk path (tree h path) acc) as [ret' [e|]]; simpl in E; subst ret'.
    + constructor.
    + apply IH, Forall_app. split; assumption.
Qed.

(** With the recursive flag no path of the result contains [/.]. *)
Lemma recursivePaths_unhidden (h : host) (paths : list gostring) :
  Forall unhidden (fst (recursivePaths h true paths)).
Proof. apply recursivePaths_loop_unhidden. constructor. Qed.

(** C2: under the relative root [.] the walk names the entries [.git],
    [.git/objects] and [src]; the test for the substring [/.] lets the
    first two through, so the [.git] directory and what is below it are in
    the result.  Under the absolute root [/home/u/proj] the same tree
    gives the root and [src] only.  [Build] makes only the first root
    absolute, so a second root [.] brings [.git] in. *)
Theorem recursivePaths_relative_root_keeps_git :
  recursivePaths host_proj true [str "."]
  = ([str "."; str ".git"; str ".git/objects"; str "src"], None)
  /\ recursivePaths host_proj true [str "/home/u/proj"]
     = ([str "/home/u/proj"; str "/home/u/proj/src"], None)
  /\ recursivePaths host_proj true [str "/home/u/proj"; str "."]
     = ([str "/home/u/proj"; str "/home/u/proj/src";
         str "."; str ".git"; str ".git/objects"; str "src"], None).
Proof. repeat split; vm_compute; reflexivity. Qed.

(** ** Build *)

Lemma goCmdArgs_flat (appName : gostring) (flags : list (gostring * gostring))
    (mainFiles : gostring) :
  goCmdArgs appName flags mainFiles
  = [str "build"; str "-o"; appName] ++ flat_map flagArgs flags ++ [str "-v"]
    ++ match mainFiles with [] => [] | _ => [mainFiles] end.
Proof.
  unfold goCmdArgs.
  assert (E : forall init,
             fold_left (fun args kv =>
                          args ++ [str "-" ++ fst kv ++ str "flags"; snd kv])
                       flags init
             = init ++ flat_map flagArgs flags).
  { induction flags as [|kv flags IH]; intros init; simpl.
    - rewrite app_nil_r. reflexivity.
    - rewrite IH, <- app_assoc. reflexivity. }
  rewrite E. destruct mainFiles as [|c m].
  - change (Nat.ltb 0 (length (@nil ascii))) with false. cbv iota.
    rewrite <- ?app_assoc, app_nil_r. reflexivity.
  - change (Nat.ltb 0 (length (c :: m))) with true. cbv iota.
    rewrite <- ?app_assoc. reflexivity.
Qed.

(** C7: the argument list of the compiler is [build -o appName], then the
    pairs [-<k>flags <v>] of the entries of the flags map, each entry once,
    then [-v], then [mainFiles] exactly when it is not empty. *)
Theorem goCmdArgs_shape (appName mainFiles : gostring)
    (flags : gmap gostring gostring) (order : list (gostring * gostring)) :
  range_of flags order ->
  exists middle,
    goCmdArgs appName order mainFiles
    = [str "build"; str "-o"; appName] ++ middle ++ [str "-v"]
      ++ (if decide (mainFiles = []) then [] else [mainFiles])
    /\ length middle = 2 * size flags
    /\ forall k v, flags !! k = Some v ->
         exists l1 l2, middle = l1 ++ [str "-" ++ k ++ str "flags"; v] ++ l2
                       /\ Nat.Even (length l1).
Proof.
  intros Hr. exists (flat_map flagArgs order). split; [|split].
  - rewrite goCmdArgs_flat. destruct mainFiles; reflexivity.
  - unfold range_of in Hr.
    rewrite <- length_map_to_list, <- (Permutation_length Hr).
    clear Hr. induction order as [|kv order IH]; simpl; lia.
  - intros k v Hkv.
    apply elem_of_map_to_list in Hkv.
    unfold range_of in Hr. rewrite <- Hr in Hkv.
    apply list_elem_of_split in Hkv as (o1 & o2 & ->).
    exists (flat_map flagArgs o1), (flat_map flagArgs o2). split.
    + rewrite flat_map_app. reflexivity.
    + exists (length o1). clear. induction o1 as [|kv o1 IH]; simpl; lia.
Qed.

Lemma goCmdArgs_shape_witness :
  exists middle,
    goCmdArgs (str "/p/app") [(str "ld", str "-s")] (str "main.go")
    = [str "build"; str "-o"; str "/p/app"] ++ middle ++ [str "-v"]
      ++ [str "main.go"]
    /\ length middle = 2
    /\ middle = [str "-ldflags"; str "-s"].
Proof.
  destruct (goCmdArgs_shape (str "/p/app") (str "main.go")
              {[ str "ld" := str "-s" ]} [(str "ld", str "-s")])
    as (middle & E & Hlen & Hkv).
  - unfold range_of. rewrite map_to_list_singleton. reflexivity.
  - exists middle. split; [exact E|].
    rewrite map_size_singleton in Hlen. split; [exact Hlen|].
    destruct (Hkv (str "ld") (str "-s")) as (l1 & l2 & Em & _).
    { apply lookup_singleton_eq. }
    subst middle.
    destruct l1 as [|x l1]; [|simpl in Hlen; rewrite !length_app in Hlen; simpl in Hlen; lia].
    destruct l2 as [|y l2]; [reflexivity|simpl in Hlen; lia].
Defined.

(** The test [err != nil]. *)
Lemma nonnil (err : error) :
  bool_decide (err <> None) = match err with Some _ => true | None => false end.
Proof.
  destruct err.
  - apply bool_decide_eq_true_2. discriminate.
  - apply bool_decide_eq_false_2. intros H. apply H. reflexivity.
Qed.

Section BuildFacts.
Variable initWatcher : builder -> list gostring -> error.
Variable h : host.
Variables mainFiles outputName : gostring.
Variable flags : list (gostring * gostring).
Variable exts : gostring.
Variable recursive : bool.
Variable appArgs : gostring.

Local Abbreviation run :=
  (run_Build initWatcher h mainFiles outputName flags exts recursive appArgs).

(** The builder that [Build] sets up for the output [appName]. *)
Local Abbreviation builder_of appName :=
  (Builder (getExts exts) appName (Dir appName) (splitArgs appArgs)
           (goCmdArgs appName flags mainFiles)).

(** Every path through [Build], spelled out: where it ends, what it has
    done by then and what [dir] holds. *)
Lemma run_Build_eq (roots : list gostring) :
  run roots =
  match roots with
  | [] => (World [] [] [], inr (Returned errNoDir))
  | d0 :: rest =>
      match Abs h d0 with
      | (_, Some e) => (World roots [] [], inr (Returned (Some e)))
      | (wd, None) =>
          match getAppName h outputName wd with
          | (_, Some e) => (World (wd :: rest) [] [], inr (Returned (Some e)))
          | (appName, None) =>
              let b := builder_of appName in
              match recursivePaths h recursive (wd :: rest) with
              | (_, Some e) =>
                  (World (wd :: rest) (startup_logs b) [], inr (Returned (Some e)))
              | (paths, None) =>
                  match initWatcher b paths with
                  | Some e =>
                      (World (wd :: rest)
                             (startup_logs b ++ [InitWatcher b paths]) [],
                       inr (Returned (Some e)))
                  | None =>
                      (World (wd :: rest)
                             (startup_logs b
                              ++ [InitWatcher b paths; Watch b; GoBuild b])
                             [CloseWatcher],
                       inr Blocked)
                  end
              end
          end
      end
  end.
Proof.
  unfold run_Build, Build.
  destruct roots as [|d0 rest]; [reflexivity|].
  unfold bind at 1. simpl. unfold bind at 1. simpl.
  destruct (Abs h d0) as [wd [e|]].
  { rewrite nonnil. reflexivity. }
  rewrite nonnil. unfold bind at 1. simpl.
  destruct (getAppName h outputName wd) as [appName [e|]].
  { rewrite nonnil. reflexivity. }
  rewrite nonnil.
  unfold bind at 1. simpl. unfold bind at 1.
  assert (Eexts : forall w,
    (if Nat.eqb (length (getExts exts)) 0
     then emit (Send (MkLog LogTypeWarn MsgNoExts))
     else if Nat.ltb 0 (length (getExts exts))
          then emit (Send (MkLog LogTypeInfo (MsgExts (getExts exts))))
          else pure tt) w
    = emit (match getExts exts with
            | [] => Send (MkLog LogTypeWarn MsgNoExts)
            | _ => Send (MkLog LogTypeInfo (MsgExts (getExts exts)))
            end) w).
  { intros w. destruct (getExts exts); reflexivity. }
  rewrite Eexts. simpl. unfold bind at 1. simpl. unfold bind at 1. simpl.
  destruct (recursivePaths h recursive (wd :: rest)) as [paths [e|]].
  { rewrite nonnil. reflexivity. }
  rewrite nonnil. unfold bind at 1. simpl.
  destruct (initWatcher _ paths) as [e|] eqn:Ew.
  { rewrite nonnil. reflexivity. }
  rewrite nonnil. reflexivity.
Qed.
End BuildFacts.

(** C8: with no root directory [Build] returns an error at once: nothing
    has been logged and no watching has started; it also returns an error,
    with no watching started, when [filepath.Abs] fails on the primary root
    and when the expansion of the watch paths fails. *)
Theorem Build_fails_before_watching
    (initWatcher : builder -> list gostring -> error) (h : host)
    (mainFiles outputName : gostring) (flags : list (gostring * gostring))
    (exts : gostring) (recursive : bool) (appArgs : gostring) :
  (run_Build initWatcher h mainFiles outputName flags exts recursive appArgs []
   = (World [] [] [], inr (Returned errNoDir))
   /\ errNoDir <> None)
  /\ (forall d0 rest e,
        snd (Abs h d0) = Some e ->
        let r := run_Build initWatcher h mainFiles outputName flags exts
                           recursive appArgs (d0 :: rest) in
        snd r = inr (Returned (Some e)) /\ trace (fst r) = [])
  /\ (forall d0 rest wd e,
        Abs h d0 = (wd, None) ->
        snd (recursivePaths h recursive (wd :: rest)) = Some e ->
        let r := run_Build initWatcher h mainFiles outputName flags exts
                           recursive appArgs (d0 :: rest) in
        (exists e', snd r = inr (Returned (Some e')))
        /\ Forall (fun ev => watching ev = false) (trace (fst r))).
Proof.
  split; [split; [apply run_Build_eq|discriminate]|]. split.
  - intros d0 rest e Ha r. unfold r. rewrite run_Build_eq.
    destruct (Abs h d0) as [wd [e0|]]; simpl in Ha; [|discriminate].
    injection Ha as ->. split; reflexivity.
  - intros d0 rest wd e Ha Hr r. unfold r. rewrite run_Build_eq, Ha.
    destruct (getAppName h outputName wd) as [appName [e0|]].
    { simpl. split; [eauto|constructor]. }
    destruct (recursivePaths h recursive (wd :: rest)) as [paths [e0|]];
      simpl in Hr; [|discriminate].
    simpl. split; [eauto|].
    repeat constructor. destruct (getExts exts); reflexivity.
Qed.

Lemma Build_fails_before_watching_witness :
  (let r := run_Build (fun _ _ => None) host_nowd (str "") (str "") []
                      (str "go") false (str "") [str "src"] in
   snd r = inr (Returned (Some (str "getwd: no such file or directory")))
   /\ trace (fst r) = [])
  /\ (let r := run_Build (fun _ _ => None) host_locked (str "") (str "") []
                         (str "go") true (str "") [str "/home/u/proj"] in
      (exists e', snd r = inr (Returned (Some e')))
      /\ Forall (fun ev => watching ev = false) (trace (fst r))).
Proof.
  pose proof (Build_fails_before_watching (fun _ _ => None) host_nowd
                (str "") (str "") [] (str "go") false (str "")) as (_ & H2 & _).
  pose proof (Build_fails_before_watching (fun _ _ => None) host_locked
                (str "") (str "") [] (str "go") true (str "")) as (_ & _ & H3).
  split.
  - apply (H2 (str "src") [] (str "getwd: no such file or directory")).
    vm_compute. reflexivity.
  - apply (H3 (str "/home/u/proj") [] (str "/home/u/proj") (str "permission denied")).
    + vm_compute. reflexivity.
    + vm_compute. reflexivity.
Defined.

(** C9, as the code has it: when [filepath.Abs] succeeds on the first root,
    [Build] overwrites the first element of [dir] with the absolute path
    and leaves the others as they are, however the call goes on; when it
    fails, [Build] returns the error and [dir] is as it was. *)
Theorem Build_overwrites_first_root
    (initWatcher : builder -> list gostring -> error) (h : host)
    (mainFiles outputName : gostring) (flags : list (gostring * gostring))
    (exts : gostring) (recursive : bool) (appArgs : gostring)
    (d0 : gostring) (rest : list gostring) :
  let r := run_Build initWatcher h mainFiles outputName flags exts
                     recursive appArgs (d0 :: rest) in
  (forall wd, Abs h d0 = (wd, None) -> dir (fst r) = wd :: rest)
  /\ (forall e, snd (Abs h d0) = Some e ->
        dir (fst r) = d0 :: rest /\ snd r = inr (Returned (Some e))).
Proof.
  intros r. unfold r. rewrite run_Build_eq. split.
  - intros wd ->.
    destruct (getAppName h outputName wd) as [appName [e0|]]; [reflexivity|].
    simpl.
    destruct (recursivePaths h recursive (wd :: rest)) as [paths [e0|]];
      [reflexivity|].
    destruct (initWatcher _ paths); reflexivity.
  - intros e Ha. destruct (Abs h d0) as [wd [e0|]]; simpl in Ha; [|discriminate].
    injection Ha as ->. split; reflexivity.
Qed.

Lemma Build_overwrites_first_root_witness :
  dir (fst (run_Build (fun _ _ => None) host_proj (str "") (str "") []
                      (str "go") false (str "") [str "."; str "lib"]))
  = [str "/home/u/proj"; str "lib"].
Proof.
  apply (Build_overwrites_first_root (fun _ _ => None) host_proj (str "") (str "")
           [] (str "go") false (str "") (str ".") [str "lib"]).
  vm_compute. reflexivity.
Defined.

(** C9 as stated fails: on a host where [os.Getwd] fails, a call with the
    relative root [src] returns the error of [filepath.Abs] and the first
    element of [dir] is still [src]: there is no absolute path it was
    overwritten with. *)
Lemma Build_keeps_dir_when_Abs_fails :
  dir (fst call_nowd) = [str "src"]
  /\ snd call_nowd = inr (Returned (Some (str "getwd: no such file or directory")))
  /\ ~ exists wd, Abs host_nowd (str "src") = (wd, None)
                  /\ dir (fst call_nowd) = [wd].
Proof.
  split; [vm_compute; reflexivity|]. split; [vm_compute; reflexivity|].
  intros (wd & Ha & _). vm_compute in Ha. discriminate Ha.
Qed.

(** C10: [Build] never returns nil: a call either returns an error that is
    not nil, before [watch] and the build goroutine are started, or, the
    watcher set up and both started, waits for ever in the receive from the
    fresh channel; it neither panics nor reaches [return nil]. *)
Theorem Build_never_returns_nil
    (initWatcher : builder -> list gostring -> error) (h : host)
    (mainFiles outputName : gostring) (flags : list (gostring * gostring))
    (exts : gostring) (recursive : bool) (appArgs : gostring)
    (roots : list gostring) :
  let r := run_Build initWatcher h mainFiles outputName flags exts
                     recursive appArgs roots in
  snd r <> inr (Returned None)
  /\ ((exists e, snd r = inr (Returned (Some e))
                 /\ forall b, (Watch b ∉ trace (fst r))
                              /\ (GoBuild b ∉ trace (fst r)))
      \/ (snd r = inr Blocked
          /\ exists b paths,
               initWatcher b paths = None
               /\ trace (fst r)
                  = startup_logs b ++ [InitWatcher b paths; Watch b; GoBuild b])).
Proof.
  intros r. unfold r. rewrite run_Build_eq.
  assert (Hlogs : forall b b', (Watch b' ∉ startup_logs b)
                               /\ (GoBuild b' ∉ startup_logs b)).
  { intros b b'. unfold startup_logs.
    split; intros H;
      repeat (apply elem_of_cons in H as [H|H];
              [destruct (b_exts b); discriminate H|]);
      apply elem_of_nil in H; exact H. }
  destruct roots as [|d0 rest].
  { split; [discriminate|]. left. eexists. split; [reflexivity|].
    intros b. split; apply not_elem_of_nil. }
  destruct (Abs h d0) as [wd [e|]].
  { split; [discriminate|]. left. eexists. split; [reflexivity|].
    intros b. split; apply not_elem_of_nil. }
  destruct (getAppName h outputName wd) as [appName [e|]].
  { split; [discriminate|]. left. eexists. split; [reflexivity|].
    intros b. split; apply not_elem_of_nil. }
  cbv zeta.
  destruct (recursivePaths h recursive (wd :: rest)) as [paths [e|]].
  { split; [discriminate|]. left. eexists. split; [reflexivity|].
    intros b. apply Hlogs. }
  destruct (initWatcher _ paths) as [e|] eqn:Ew.
  - split; [discriminate|]. left. eexists. split; [reflexivity|].
    intros b. cbn [fst trace].
    split; intros H; apply elem_of_app in H as [H|H];
      try (apply (Hlogs _ b) in H; exact H);
      apply elem_of_cons in H as [H|H]; try discriminate H;
      apply elem_of_nil in H; exact H.
  - split; [discriminate|]. right. split; [reflexivity|].
    eexists _, paths. split; [exact Ew|reflexivity].
Qed.

(** * Further properties *)

(** ** The tokenizer: what the scan keeps *)

Lemma slice_prefix (done rest : gostring) (lo : nat) :
  slice (done ++ rest) lo (length done) = skipn lo done.
Proof.
  unfold slice.
  destruct (Nat.le_gt_cases lo (length done)) as [H|H].
  - rewrite skipn_app, firstn_app, length_skipn.
    replace (length done - lo - (length done - lo)) with 0 by lia.
    rewrite firstn_all2 by (rewrite length_skipn; lia).
    simpl. apply app_nil_r.
  - replace (length done - lo) with 0 by lia.
    rewrite (skipn_all2 done) by lia. reflexivity.
Qed.

Lemma appendArg_app (args : list gostring) (arg : gostring) :
  appendArg args arg = args ++ appendArg [] arg.
Proof.
  unfold appendArg. destruct (TrimSpace arg); [rewrite app_nil_r|]; reflexivity.
Qed.

Lemma appendArg_nil (args : list gostring) : appendArg args [] = args.
Proof. reflexivity. Qed.

Lemma appendArg_no_quote (args : list gostring) (arg : gostring) :
  quote ∉ arg -> Forall (fun t => quote ∉ t) args ->
  Forall (fun t => quote ∉ t) (appendArg args arg).
Proof.
  intros Ha H. unfold appendArg.
  pose proof (TrimSpace_not_elem quote arg Ha) as Ht.
  destruct (TrimSpace arg); [exact H|].
  apply Forall_app. split; [exact H|]. constructor; [exact Ht|constructor].
Qed.

Lemma skipn_snoc (done : gostring) (b : ascii) (lo : nat) :
  lo <= length done -> skipn lo (done ++ [b]) = skipn lo done ++ [b].
Proof.
  intros H. rewrite skipn_app.
  replace (lo - length done) with 0 by lia. reflexivity.
Qed.

Lemma skipn_snoc_all (done : gostring) (b : ascii) :
  skipn (length done + 1) (done ++ [b]) = [].
Proof. apply skipn_all2. rewrite length_app. simpl. lia. Qed.

Lemma skipn_snoc_last (done : gostring) (b : ascii) :
  skipn (length done) (done ++ [b]) = [b].
Proof. rewrite skipn_app, skipn_all, Nat.sub_diag. reflexivity. Qed.

(** One iteration keeps the invariant. *)
Lemma splitArgs_step_inv (done rest : gostring) (b : ascii) (s : scan) :
  scan_inv done s ->
  scan_inv (done ++ [b]) (splitArgs_step (done ++ b :: rest) (length done) b s).
Proof.
  intros (Hle & Hst & Hsp & Hq & Hret).
  assert (Hlen : length (done ++ [b]) = length done + 1)
    by (rewrite length_app; simpl; lia).
  assert (Happ : Forall (fun t => quote ∉ t)
                   (appendArg (ret s) (slice (done ++ b :: rest) (start s) (length done)))).
  { rewrite slice_prefix. apply appendArg_no_quote; assumption. }
  assert (Hnil : quote ∉ skipn (length done + 1) (done ++ [b])).
  { rewrite skipn_snoc_all. apply not_elem_of_nil. }
  assert (Hext : Ascii.eqb b quote = false -> quote ∉ skipn (start s) (done ++ [b])).
  { intros Hb. rewrite skipn_snoc by exact Hle. intros Hin.
    apply elem_of_app in Hin as [Hin|Hin]; [auto|].
    apply list_elem_of_singleton in Hin. subst b.
    rewrite Ascii.eqb_refl in Hb. discriminate. }
  assert (Hlast : Ascii.eqb b quote = false ->
                  quote ∉ skipn (length done) (done ++ [b])).
  { intros Hb. rewrite skipn_snoc_last. intros Hin.
    apply list_elem_of_singleton in Hin. subst b.
    rewrite Ascii.eqb_refl in Hb. discriminate. }
  assert (Hsp' : Ascii.eqb (state s) " " = true -> start s = length done).
  { intros E. apply Ascii.eqb_eq in E. auto. }
  assert (Hq' : Ascii.eqb (state s) quote = true -> state s = quote).
  { apply Ascii.eqb_eq. }
  assert (Hnsp : Ascii.eqb (state s) " " = false -> state s <> " ").
  { apply Ascii.eqb_neq. }
  unfold splitArgs_step, scan_inv. rewrite Hlen.
  destruct (Ascii.eqb b " ") eqn:E1;
    [apply Ascii.eqb_eq in E1; subst b|
     destruct (Ascii.eqb b "=") eqn:E4;
       [apply Ascii.eqb_eq in E4; subst b|
        destruct (Ascii.eqb b quote) eqn:E5]];
    destruct (Ascii.eqb (state s) quote) eqn:E2;
    destruct (Ascii.eqb (state s) " ") eqn:E3;
    try destruct (Ascii.eqb (state s) "=") eqn:E6;
    try destruct (Nat.eqb (start s) (length done)) eqn:E7;
    cbn [ret state start negb];
    (split; [|split; [|split; [|split]]]);
    solve [ lia
          | auto
          | discriminate
          | intros Hs; rewrite (Hq' eq_refl) in Hs; discriminate Hs
          | intros Hs; exfalso; apply (Hnsp eq_refl); exact Hs
          | apply Hext; reflexivity
          | apply Hext; assumption
          | apply Hlast; assumption
          | intros _; lia
          | specialize (Hsp' eq_refl); lia ].
Qed.

Lemma splitArgs_loop_snoc (args done : gostring) (b : ascii) (s : scan) :
  splitArgs_loop args (done ++ [b]) 0 s
  = splitArgs_step args (length done) b (splitArgs_loop args done 0 s).
Proof. rewrite splitArgs_loop_app. reflexivity. Qed.

(** The invariant holds wherever the loop stands. *)
Lemma splitArgs_loop_inv (done rest : gostring) :
  scan_inv done (splitArgs_loop (done ++ rest) done 0 (Scan [] zero 0)).
Proof.
  revert rest. induction done as [|b done IH] using rev_ind; intros rest.
  - repeat split; simpl; auto. apply not_elem_of_nil.
  - rewrite splitArgs_loop_snoc, <- app_assoc. simpl app.
    apply splitArgs_step_inv, IH.
Qed.

Lemma splitArgs_scan_inv (args : gostring) : scan_inv args (splitArgs_scan args).
Proof.
  pose proof (splitArgs_loop_inv args []) as H.
  rewrite app_nil_r in H. exact H.
Qed.

Lemma slice_to_end (a : gostring) (lo : nat) : slice a lo (length a) = skipn lo a.
Proof.
  pose proof (slice_prefix a [] lo) as H. rewrite app_nil_r in H. exact H.
Qed.

Lemma slice_shift (pre post : gostring) (lo hi : nat) :
  slice (pre ++ post) (length pre + lo) (length pre + hi) = slice post lo hi.
Proof.
  unfold slice. rewrite skipn_app.
  rewrite (skipn_all2 pre) by lia.
  replace (length pre + lo - length pre) with lo by lia.
  replace (length pre + hi - (length pre + lo)) with (hi - lo) by lia.
  reflexivity.
Qed.

Lemma slice_mid (p q r : gostring) :
  slice (p ++ q ++ r) (length p) (length p + length q) = q.
Proof.
  replace (length p) with (length p + 0) at 1 by lia.
  rewrite slice_shift. unfold slice.
  change (skipn 0 (q ++ r)) with (q ++ r).
  rewrite Nat.sub_0_r, firstn_app, firstn_all, Nat.sub_diag. simpl.
  apply app_nil_r.
Qed.

(** ** The tokenizer: starting again behind a separator *)

Lemma splitArgs_step_shifted (pre post : gostring) (r0 : list gostring)
    (i : nat) (b : ascii) (s1 s2 : scan) :
  shifted (length pre) r0 s1 s2 ->
  shifted (length pre) r0
          (splitArgs_step (pre ++ post) (length pre + i) b s1)
          (splitArgs_step post i b s2).
Proof.
  destruct s1 as [r1 st1 n1], s2 as [r2 st2 n2].
  intros (Hr & Hn & Hs). simpl in Hr, Hn, Hs. subst r1 n1 st1.
  unfold splitArgs_step. cbn [ret state start].
  rewrite slice_shift.
  assert (Ea : forall x, appendArg (r0 ++ r2) x = r0 ++ appendArg r2 x).
  { intros x. rewrite (appendArg_app (r0 ++ r2)), (appendArg_app r2).
    apply eq_sym, app_assoc. }
  assert (En : Nat.eqb (length pre + n2) (length pre + i) = Nat.eqb n2 i).
  { destruct (Nat.eqb_spec n2 i) as [->|Hne].
    - apply Nat.eqb_refl.
    - apply Nat.eqb_neq. lia. }
  rewrite Ea, En.
  repeat match goal with
         | |- context [if ?c then _ else _] => destruct c
         end;
    cbn [ret state start negb]; unfold shifted; cbn [ret state start];
    (split; [reflexivity|split; [lia|reflexivity]]).
Qed.

Lemma splitArgs_loop_shifted (pre post l : gostring) (r0 : list gostring)
    (i : nat) (s1 s2 : scan) :
  shifted (length pre) r0 s1 s2 ->
  shifted (length pre) r0
          (splitArgs_loop (pre ++ post) l (length pre + i) s1)
          (splitArgs_loop post l i s2).
Proof.
  revert i s1 s2. induction l as [|b l IH]; intros i s1 s2 H; simpl.
  - exact H.
  - rewrite <- Nat.add_succ_r. apply IH, splitArgs_step_shifted, H.
Qed.

(** Behind a space the scan is in state [' '] where a fresh scan is in
    state [0]; the first byte makes the two agree. *)
Lemma splitArgs_step_restart (pre post : gostring) (r0 : list gostring)
    (st : ascii) (b : ascii) :
  st = zero \/ st = " " ->
  shifted (length pre) r0
          (splitArgs_step (pre ++ post) (length pre) b (Scan r0 st (length pre)))
          (splitArgs_step post 0 b (Scan [] zero 0)).
Proof.
  intros [->| ->].
  - pose proof (splitArgs_step_shifted pre post r0 0 b
                  (Scan r0 zero (length pre)) (Scan [] zero 0)) as H.
    rewrite Nat.add_0_r in H. apply H.
    repeat split; simpl; [rewrite app_nil_r; reflexivity|lia].
  - unfold splitArgs_step. cbn [ret state start].
    assert (E1 : slice (pre ++ post) (length pre) (length pre) = [])
      by (unfold slice; rewrite Nat.sub_diag; reflexivity).
    assert (E2 : slice post 0 0 = []) by reflexivity.
    rewrite E1, E2, Nat.eqb_refl. cbn [negb Nat.eqb].
    rewrite !appendArg_nil.
    destruct (Ascii.eqb b " "), (Ascii.eqb b "="), (Ascii.eqb b quote);
      cbn; unfold shifted; cbn [ret state start];
      (split; [rewrite app_nil_r; reflexivity|split; [lia|reflexivity]]).
Qed.

Lemma flush_shifted (pre post : gostring) (r0 : list gostring) (s1 s2 : scan) :
  shifted (length pre) r0 s1 s2 ->
  flush (pre ++ post) s1 = r0 ++ flush post s2.
Proof.
  intros (Hr & Hn & _). unfold flush.
  rewrite Hr, Hn, length_app, slice_shift.
  assert (E : Nat.ltb (length pre + start s2) (length pre + length post)
              = Nat.ltb (start s2) (length post)).
  { destruct (Nat.ltb_spec (start s2) (length post)).
    - apply Nat.ltb_lt. lia.
    - apply Nat.ltb_ge. lia. }
  rewrite E. destruct (Nat.ltb (start s2) (length post)); [|reflexivity].
  rewrite (appendArg_app (r0 ++ ret s2)), (appendArg_app (ret s2)).
  apply eq_sym, app_assoc.
Qed.

(** When the scan stands behind [pre] with nothing pending and outside a
    quoted span, the rest of the string is tokenized as if it stood alone. *)
Lemma splitArgs_restart (pre post : gostring) (s0 : scan) :
  start s0 = length pre ->
  state s0 = zero \/ state s0 = " " ->
  flush (pre ++ post) (splitArgs_loop (pre ++ post) post (length pre) s0)
  = ret s0 ++ splitArgs post.
Proof.
  intros Hn Hs. destruct s0 as [r0 st n0]. simpl in Hn, Hs. subst n0.
  destruct post as [|b post].
  - change (splitArgs []) with (@nil gostring).
    simpl. unfold flush. cbn [ret start].
    rewrite !app_nil_r, Nat.ltb_irrefl. reflexivity.
  - change (splitArgs (b :: post))
      with (flush (b :: post)
              (splitArgs_loop (b :: post) post 1
                 (splitArgs_step (b :: post) 0 b (Scan [] zero 0)))).
    cbn [splitArgs_loop ret].
    apply flush_shifted.
    replace (S (length pre)) with (length pre + 1) by lia.
    apply splitArgs_loop_shifted, splitArgs_step_restart, Hs.
Qed.

Lemma splitArgs_flush (args : gostring) :
  splitArgs args = flush args (splitArgs_scan args).
Proof. reflexivity. Qed.

(** The scan of a prefix, continued. *)
Lemma splitArgs_scan_app (a b : gostring) :
  splitArgs_scan (a ++ b)
  = splitArgs_loop (a ++ b) b (length a) (splitArgs_scan a).
Proof.
  unfold splitArgs_scan. rewrite splitArgs_loop_app at 1.
  rewrite (splitArgs_loop_prefix a b a 0) by (simpl; lia).
  reflexivity.
Qed.

(** What a separator or an opening quote flushes is what the end of the
    string would flush. *)
Lemma flush_pending (a rest : gostring) (s : scan) :
  start s <= length a ->
  appendArg (ret s) (slice (a ++ rest) (start s) (length a)) = flush a s.
Proof.
  intros Hle. rewrite slice_prefix. unfold flush. rewrite slice_to_end.
  destruct (Nat.ltb_spec (start s) (length a)) as [H|H]; [reflexivity|].
  rewrite skipn_all2 by lia. apply appendArg_nil.
Qed.

(** [splitArgs] over a separator outside a quoted span. *)
Lemma splitArgs_after_sep (a : gostring) (c : ascii) (b : gostring) :
  state (splitArgs_scan a) <> quote ->
  c = " " \/ c = "=" ->
  splitArgs (a ++ c :: b) = splitArgs a ++ splitArgs b.
Proof.
  intros Hq Hc.
  destruct (splitArgs_scan_inv a) as (Hle & Hst & Hsp & _ & _).
  rewrite (splitArgs_flush (a ++ c :: b)), splitArgs_scan_app.
  cbn [splitArgs_loop].
  set (s0 := splitArgs_step (a ++ c :: b) (length a) c (splitArgs_scan a)).
  assert (H0 : start s0 = length (a ++ [c])
               /\ (state s0 = zero \/ state s0 = " ")
               /\ ret s0 = splitArgs a).
  { rewrite length_app. simpl length. unfold s0, splitArgs_step.
    assert (Eq : Ascii.eqb (state (splitArgs_scan a)) quote = false)
      by (apply Ascii.eqb_neq; exact Hq).
    assert (Ee : Ascii.eqb (state (splitArgs_scan a)) "=" = false).
    { apply Ascii.eqb_neq. intros E.
      destruct Hst as [H|[H|H]]; rewrite H in E; discriminate E. }
    rewrite Eq, Ee. cbn [negb].
    rewrite (flush_pending a (c :: b)) by exact Hle.
    destruct Hc as [-> | ->]; cbn [Ascii.eqb Bool.eqb ret state start].
    - destruct (Ascii.eqb (state (splitArgs_scan a)) " ") eqn:E;
        cbn [negb ret state start].
      + apply Ascii.eqb_eq in E. specialize (Hsp E).
        split; [reflexivity|]. split; [right; exact E|].
        rewrite splitArgs_flush. unfold flush.
        rewrite Hsp, Nat.ltb_irrefl. reflexivity.
      + split; [reflexivity|]. split; [right; reflexivity|reflexivity].
    - split; [reflexivity|]. split; [left; reflexivity|reflexivity]. }
  destruct H0 as (Hn & Hs & Hr).
  replace (a ++ c :: b) with ((a ++ [c]) ++ b)
    by (rewrite <- app_assoc; reflexivity).
  replace (S (length a)) with (length (a ++ [c]))
    by (rewrite length_app; simpl; lia).
  rewrite (splitArgs_restart (a ++ [c]) b s0 Hn Hs), Hr. reflexivity.
Qed.

(** [splitArgs] over a quoted span outside a quoted span. *)
Lemma splitArgs_over_quoted (a q b : gostring) :
  state (splitArgs_scan a) <> quote ->
  quote ∉ q ->
  splitArgs (a ++ quote :: q ++ quote :: b)
  = appendArg (splitArgs a) q ++ splitArgs b.
Proof.
  intros Hq Hnq.
  destruct (splitArgs_scan_inv a) as (Hle & _ & _ & _ & _).
  set (args := a ++ quote :: q ++ quote :: b).
  rewrite (splitArgs_flush args). unfold args at 2.
  rewrite splitArgs_scan_app. fold args. cbn [splitArgs_loop].
  set (s1 := splitArgs_step args (length a) quote (splitArgs_scan a)).
  assert (H1 : s1 = Scan (splitArgs a) quote (length a + 1)).
  { unfold s1, splitArgs_step.
    assert (Eq : Ascii.eqb (state (splitArgs_scan a)) quote = false)
      by (apply Ascii.eqb_neq; exact Hq).
    rewrite Eq. cbn [Ascii.eqb Bool.eqb].
    unfold args. rewrite (flush_pending a _ _ Hle).
    f_equal. rewrite splitArgs_flush. unfold flush.
    destruct (Nat.eqb_spec (start (splitArgs_scan a)) (length a)) as [E|E];
      cbn [negb].
    - rewrite E, Nat.ltb_irrefl. reflexivity.
    - destruct (Nat.ltb_spec (start (splitArgs_scan a)) (length a)) as [H|H];
        [reflexivity|lia]. }
  rewrite splitArgs_loop_app.
  rewrite (splitArgs_loop_quoted args q (S (length a)) s1)
    by (rewrite ?H1; auto).
  cbn [splitArgs_loop].
  set (s2 := splitArgs_step args (S (length a) + length q) quote s1).
  assert (Eargs : args = (a ++ quote :: q ++ [quote]) ++ b).
  { unfold args. rewrite <- !app_assoc. simpl. rewrite <- app_assoc. reflexivity. }
  assert (Elen : length (a ++ quote :: q ++ [quote]) = S (S (length a + length q))).
  { rewrite length_app. simpl. rewrite length_app. simpl. lia. }
  assert (H2 : s2 = Scan (appendArg (splitArgs a) q) zero
                         (length (a ++ quote :: q ++ [quote]))).
  { unfold s2, splitArgs_step. rewrite H1.
    cbn [ret state start Ascii.eqb Bool.eqb].
    assert (Es : slice args (length a + 1) (S (length a) + length q) = q).
    { unfold args.
      replace (a ++ quote :: q ++ quote :: b)
        with ((a ++ [quote]) ++ q ++ quote :: b)
        by (rewrite <- app_assoc; reflexivity).
      replace (length a + 1) with (length (a ++ [quote]))
        by (rewrite length_app; reflexivity).
      replace (S (length a) + length q) with (length (a ++ [quote]) + length q)
        by (rewrite length_app; simpl; lia).
      apply slice_mid. }
    rewrite Es, Elen. f_equal. lia. }
  replace (S (S (length a) + length q)) with (length (a ++ quote :: q ++ [quote]))
    by (rewrite Elen; lia).
  rewrite Eargs, (splitArgs_restart (a ++ quote :: q ++ [quote]) b s2).
  - rewrite H2. reflexivity.
  - rewrite H2. reflexivity.
  - rewrite H2. left. reflexivity.
Qed.

(** Bytes that are no space, no [=] and no quote change nothing in a scan
    that is in state [0]. *)
Lemma splitArgs_loop_plain (args l : gostring) (i : nat) (s : scan) :
  state s = zero ->
  Forall (fun c => isSep c = false) l -> quote ∉ l ->
  splitArgs_loop args l i s = s.
Proof.
  intros Hs Hl. revert i. induction Hl as [|c l Hc Hl IH]; intros i Hq; simpl.
  - reflexivity.
  - assert (E : splitArgs_step args i c s = s).
    { unfold isSep in Hc. apply orb_false_iff in Hc as [H1 H2].
      assert (H3 : Ascii.eqb c quote = false).
      { apply Ascii.eqb_neq. intros ->. apply Hq. left. }
      unfold splitArgs_step. rewrite H1, H2, H3, Hs. reflexivity. }
    rewrite E. apply IH. intros H. apply Hq. right. exact H.
Qed.

Lemma splitArgs_plain (s : gostring) :
  Forall (fun c => isSep c = false) s -> quote ∉ s ->
  splitArgs_scan s = Scan [] zero 0 /\ splitArgs s = appendArg [] s.
Proof.
  intros Hs Hq.
  assert (E : splitArgs_scan s = Scan [] zero 0).
  { apply splitArgs_loop_plain; [reflexivity|exact Hs|exact Hq]. }
  split; [exact E|].
  rewrite splitArgs_flush, E. unfold flush. cbn [ret start].
  rewrite slice_to_end. destruct s as [|c s]; reflexivity.
Qed.

(** A string is one piece, or a first piece, a separator and the rest. *)
Lemma fields_cases (s : gostring) :
  (Forall (fun c => isSep c = false) s /\ fields s = [s])
  \/ exists p c rest,
       s = p ++ c :: rest /\ isSep c = true
       /\ Forall (fun c => isSep c = false) p
       /\ fields s = p :: fields rest.
Proof.
  induction s as [|c s IH].
  - left. split; [constructor|reflexivity].
  - simpl. destruct (isSep c) eqn:Ec.
    + right. exists [], c, s. repeat split; auto.
    + destruct IH as [[Hs Ef]|(p & c' & rest & -> & Hc' & Hp & Ef)]; rewrite Ef.
      * left. split; [constructor; assumption|reflexivity].
      * right. exists (c :: p), c', rest.
        split; [reflexivity|]. split; [exact Hc'|].
        split; [constructor; assumption|reflexivity].
Qed.

Lemma isSep_true (c : ascii) : isSep c = true -> c = " " \/ c = "=".
Proof.
  unfold isSep. intros H. apply orb_true_iff in H as [H|H];
    apply Ascii.eqb_eq in H; auto.
Qed.

Lemma splitArgs_fields (s : gostring) :
  quote ∉ s -> splitArgs s = flat_map (appendArg []) (fields s).
Proof.
  remember (length s) as n eqn:Hn. revert s Hn.
  induction n as [n IH] using lt_wf_ind. intros s Hn Hq.
  destruct (fields_cases s) as [[Hs Ef]|(p & c & rest & -> & Hc & Hp & Ef)];
    rewrite Ef; simpl.
  - rewrite app_nil_r. apply splitArgs_plain; assumption.
  - assert (Hqp : quote ∉ p).
    { intros H. apply Hq, elem_of_app. left. exact H. }
    assert (Hqr : quote ∉ rest).
    { intros H. apply Hq, elem_of_app. right. right. exact H. }
    destruct (splitArgs_plain p Hp Hqp) as [Escan Ep].
    rewrite splitArgs_after_sep.
    + rewrite Ep. f_equal.
      apply (IH (length rest)); [|reflexivity|exact Hqr].
      subst n. rewrite length_app. simpl. lia.
    + rewrite Escan. discriminate.
    + apply isSep_true, Hc.
Qed.

(** ** The path expander: what a walk adds does not depend on what was
    collected before *)

Lemma walk_ret (ret : list gostring) (path : gostring) (isDir : bool) (err : error) :
  walk ret path isDir err
  = (ret ++ fst (walk [] path isDir err), snd (walk [] path isDir err)).
Proof.
  unfold walk. destruct err as [e|]; [rewrite app_nil_r; reflexivity|].
  destruct (isDir && (Index path (str "/.") <? 0)%Z);
    [reflexivity|rewrite app_nil_r; reflexivity].
Qed.

Lemma walkEntries_ret_with
    (visit : gostring -> node -> list gostring -> list gostring * error)
    (path : gostring) (entries : list (gostring * node)) :
  Forall (fun e => forall p ret,
            visit p (snd e) ret
            = (ret ++ fst (visit p (snd e) []), snd (visit p (snd e) [])))
         entries ->
  forall ret,
    walkEntries visit path entries ret
    = (ret ++ fst (walkEntries visit path entries []),
       snd (walkEntries visit path entries [])).
Proof.
  induction 1 as [|[name child] entries Hc _ IH]; intros ret.
  - simpl. rewrite app_nil_r. reflexivity.
  - simpl in *. rewrite (Hc (Join2 path name) ret).
    destruct (visit (Join2 path name) child []) as [r1 [e1|]]; simpl.
    + reflexivity.
    + rewrite (IH (ret ++ r1)), (IH r1). cbn [fst snd].
      rewrite app_assoc. reflexivity.
Qed.

Lemma Walk_tree_ret (n : node) :
  forall (path : gostring) (ret : list gostring),
    Walk path n ret = (ret ++ fst (Walk path n []), snd (Walk path n [])).
Proof.
  revert n. fix IH 1. intros n path ret.
  destruct n as [|entries|e|e].
  - apply walk_ret.
  - change (Walk path (Directory entries) ret)
      with (let '(r, _) := walk ret path true None in
            walkEntries Walk path entries r).
    change (Walk path (Directory entries) [])
      with (let '(r, _) := walk [] path true None in
            walkEntries Walk path entries r).
    rewrite (walk_ret ret).
    destruct (walk [] path true None) as [r0 e0]. cbn [fst snd].
    assert (Hall : Forall (fun e => forall p ret,
                             Walk p (snd e) ret
                             = (ret ++ fst (Walk p (snd e) []),
                                snd (Walk p (snd e) []))) entries).
    { induction entries as [|[name child] entries IHe]; constructor.
      - intros p r. apply IH.
      - exact IHe. }
    rewrite (walkEntries_ret_with Walk path entries Hall (ret ++ r0)).
    rewrite (walkEntries_ret_with Walk path entries Hall r0).
    cbn [fst snd]. rewrite app_assoc. reflexivity.
  - change (Walk path (Unreadable e) ret)
      with (let '(r, _) := walk ret path true None in
            walk r path true (Some e)).
    change (Walk path (Unreadable e) [])
      with (let '(r, _) := walk [] path true None in
            walk r path true (Some e)).
    rewrite (walk_ret ret).
    destruct (walk [] path true None) as [r0 e0]. reflexivity.
  - apply walk_ret.
Qed.

(** The loop over the roots, started with [acc]. *)
Lemma recursivePaths_loop_acc (h : host) (paths acc : list gostring) :
  recursivePaths_loop h paths acc
  = match recursivePaths_loop h paths [] with
    | (_, Some e) => ([], Some e)
    | (ret, None) => (acc ++ ret, None)
    end.
Proof.
  revert acc. induction paths as [|path paths IH]; intros acc; simpl.
  - rewrite app_nil_r. reflexivity.
  - rewrite (Walk_tree_ret (tree h path) path acc).
    destruct (Walk path (tree h path) []) as [r [e|]]; cbn [fst snd].
    + reflexivity.
    + rewrite (IH (acc ++ r)), (IH r).
      destruct (recursivePaths_loop h paths []) as [r' [e'|]];
        [reflexivity|rewrite app_assoc; reflexivity].
Qed.

Lemma recursivePaths_loop_app (h : host) (p1 p2 acc : list gostring) :
  recursivePaths_loop h (p1 ++ p2) acc
  = match recursivePaths_loop h p1 acc with
    | (_, Some e) => ([], Some e)
    | (ret, None) => recursivePaths_loop h p2 ret
    end.
Proof.
  revert acc. induction p1 as [|path p1 IH]; intros acc; simpl.
  - reflexivity.
  - destruct (Walk path (tree h path) acc) as [r [e|]]; [reflexivity|apply IH].
Qed.

(** A root that is a directory, with a path that passes the test, is the
    first path its walk collects. *)
Lemma Walk_directory_root (path : gostring) (entries : list (gostring * node)) :
  unhidden path ->
  exists more, fst (Walk path (Directory entries) []) = path :: more.
Proof.
  intros Hu.
  change (Walk path (Directory entries) [])
    with (let '(r, _) := walk [] path true None in
          walkEntries Walk path entries r).
  unfold walk. unfold unhidden in Hu. rewrite Hu. cbn [andb app].
  assert (Hall : Forall (fun e => forall p ret,
                           Walk p (snd e) ret
                           = (ret ++ fst (Walk p (snd e) []),
                              snd (Walk p (snd e) []))) entries).
  { apply List.Forall_forall. intros e _ p r. apply Walk_tree_ret. }
  rewrite (walkEntries_ret_with Walk path entries Hall [path]).
  eexists. reflexivity.
Qed.

(** ** The tokenizer: further properties *)

Lemma splitArgs_quote_free (args : gostring) :
  Forall (fun t => quote ∉ t) (splitArgs args).
Proof.
  destruct (splitArgs_scan_inv args) as (_ & _ & _ & Hq & Hret).
  rewrite splitArgs_flush. unfold flush.
  destruct (Nat.ltb _ _); [|exact Hret].
  rewrite slice_to_end. apply appendArg_no_quote; assumption.
Qed.

(** X1: no token holds a double quote, and the scan never has one in its
    pending piece: a quote always ends the piece before it and starts the
    next piece behind itself. *)
Theorem splitArgs_tokens_no_quote (args : gostring) :
  Forall (fun t => quote ∉ t) (splitArgs args)
  /\ (quote ∉ skipn (start (splitArgs_scan args)) args).
Proof.
  split; [apply splitArgs_quote_free|].
  apply (splitArgs_scan_inv args).
Qed.

(** X2: the slices of [splitArgs] are in range: when the loop has read
    [done] of [done ++ rest], at index [len(done)], [start] is at most the
    index, which is at most the length of the string; so neither
    [args[start:index]] nor the final [args[start:len(args)]] can panic. *)
Theorem splitArgs_slices_in_range (done rest : gostring) :
  start (splitArgs_loop (done ++ rest) done 0 (Scan [] zero 0)) <= length done
  /\ length done <= length (done ++ rest).
Proof.
  split.
  - apply (splitArgs_loop_inv done rest).
  - rewrite length_app. lia.
Qed.

(** X3: outside a quoted span a space or an [=] cuts the string in two
    that are tokenized apart: the tokens of [a c b] are those of [a]
    followed by those of [b]. *)
Theorem splitArgs_cut_at_separator (a : gostring) (c : ascii) (b : gostring) :
  state (splitArgs_scan a) <> quote ->
  c = " " \/ c = "=" ->
  splitArgs (a ++ c :: b) = splitArgs a ++ splitArgs b.
Proof. apply splitArgs_after_sep. Qed.

Lemma splitArgs_cut_at_separator_witness :
  splitArgs (str "-port" ++ "=" :: str "80 -v")
  = splitArgs (str "-port") ++ splitArgs (str "80 -v").
Proof.
  apply splitArgs_cut_at_separator.
  - vm_compute. discriminate.
  - right. reflexivity.
Defined.

(** X4: a quoted span that opens outside a quoted span gives one token,
    its content trimmed, spaces and [=] inside it kept (nothing when the
    content is blank); what stands before and behind it is tokenized
    apart. *)
Theorem splitArgs_quoted_span (a q b : gostring) :
  state (splitArgs_scan a) <> quote ->
  quote ∉ q ->
  splitArgs (a ++ quote :: q ++ quote :: b)
  = splitArgs a ++ appendArg [] q ++ splitArgs b.
Proof.
  intros Ha Hq. rewrite splitArgs_over_quoted by assumption.
  rewrite appendArg_app, <- app_assoc. reflexivity.
Qed.

Lemma splitArgs_quoted_span_witness :
  splitArgs (str "-m " ++ quote :: str " a = b " ++ quote :: str "x")
  = splitArgs (str "-m ") ++ appendArg [] (str " a = b ") ++ splitArgs (str "x")
  /\ splitArgs (str "-m " ++ quote :: str " a = b " ++ quote :: str "x")
     = [str "-m"; str "a = b"; str "x"].
Proof.
  split.
  - apply splitArgs_quoted_span.
    + vm_compute. discriminate.
    + vm_compute. intros H.
      repeat (apply elem_of_cons in H as [H|H]; [discriminate H|]).
      apply elem_of_nil in H. exact H.
  - vm_compute. reflexivity.
Defined.

Lemma fields_pieces (s : gostring) :
  Forall (Forall (fun c => isSep c = false)) (fields s).
Proof.
  induction s as [|c s IH]; simpl.
  - constructor; constructor.
  - destruct (isSep c) eqn:E.
    + constructor; [constructor|exact IH].
    + destruct (fields s) as [|p ps]; [repeat constructor; exact E|].
      inversion IH as [|? ? Hp Hps]; subst.
      constructor; [constructor; assumption|exact Hps].
Qed.

Lemma appendArg_no_sep (piece : gostring) :
  Forall (fun c => isSep c = false) piece ->
  Forall (fun t => (" " ∉ t) /\ ("=" ∉ t)) (appendArg [] piece).
Proof.
  intros Hp.
  assert (Hs : forall c, isSep c = true -> c ∉ piece).
  { intros c Hc Hin. rewrite List.Forall_forall in Hp.
    apply list_elem_of_In in Hin. rewrite (Hp c Hin) in Hc. discriminate. }
  unfold appendArg.
  pose proof (TrimSpace_not_elem " " piece (Hs " " eq_refl)) as H1.
  pose proof (TrimSpace_not_elem "=" piece (Hs "=" eq_refl)) as H2.
  destruct (TrimSpace piece); [constructor|].
  constructor; [split; assumption|constructor].
Qed.

Lemma splitArgs_sep_free (s : gostring) :
  quote ∉ s -> Forall (fun t => (" " ∉ t) /\ ("=" ∉ t)) (splitArgs s).
Proof.
  intros Hq. rewrite (splitArgs_fields s Hq).
  pose proof (fields_pieces s) as H.
  induction H as [|p ps Hp _ IH]; simpl; [constructor|].
  apply Forall_app. split; [apply appendArg_no_sep, Hp|exact IH].
Qed.

(** X5: on a string without quotes [splitArgs] is: cut at every space and
    every [=], trim each piece, drop the pieces that are empty then; so
    no token holds a space or an [=]. *)
Theorem splitArgs_without_quotes (s : gostring) :
  quote ∉ s ->
  splitArgs s = flat_map (appendArg []) (fields s)
  /\ Forall (fun t => (" " ∉ t) /\ ("=" ∉ t)) (splitArgs s).
Proof.
  intros Hq. split; [apply splitArgs_fields, Hq|apply splitArgs_sep_free, Hq].
Qed.

Lemma splitArgs_without_quotes_witness :
  splitArgs (str " a=b  c ") = flat_map (appendArg []) (fields (str " a=b  c "))
  /\ Forall (fun t => (" " ∉ t) /\ ("=" ∉ t)) (splitArgs (str " a=b  c ")).
Proof.
  apply splitArgs_without_quotes.
  vm_compute. intros H.
  repeat (apply elem_of_cons in H as [H|H]; [discriminate H|]).
  apply elem_of_nil in H. exact H.
Defined.

Lemma isSep_false (t : gostring) :
  " " ∉ t -> "=" ∉ t -> Forall (fun c => isSep c = false) t.
Proof.
  intros H1 H2. apply List.Forall_forall. intros c Hc.
  apply list_elem_of_In in Hc. unfold isSep. apply orb_false_iff.
  split; apply Ascii.eqb_neq; intros ->; auto.
Qed.

(** Tokens without space, [=] and quote, joined by spaces, are tokenized
    into themselves. *)
Lemma splitArgs_Join (ts : list gostring) :
  Forall (fun t => token t /\ Forall (fun c => isSep c = false) t /\ (quote ∉ t)) ts ->
  splitArgs (Join ts [" "]) = ts.
Proof.
  induction 1 as [|t ts (Ht & Hp & Hq) Hts IH]; [reflexivity|].
  destruct (splitArgs_plain t Hp Hq) as [Escan Et].
  assert (E1 : splitArgs t = [t]).
  { rewrite Et. unfold appendArg. destruct Ht as [Hne Htr].
    rewrite (trimmed_TrimSpace t Htr). destruct t; [congruence|reflexivity]. }
  destruct ts as [|t' ts]; [exact E1|].
  change (Join (t :: t' :: ts) [" "]) with (t ++ " " :: Join (t' :: ts) [" "]).
  rewrite splitArgs_after_sep.
  - rewrite E1, IH. reflexivity.
  - rewrite Escan. discriminate.
  - left. reflexivity.
Qed.

(** X17: on a string without quotes tokenizing is a normal form: the
    tokens joined by single spaces are tokenized into the same tokens. *)
Theorem splitArgs_retokenize (s : gostring) :
  quote ∉ s ->
  splitArgs (Join (splitArgs s) (str " ")) = splitArgs s.
Proof.
  intros Hq. apply splitArgs_Join.
  pose proof (splitArgs_tokens s) as H1.
  pose proof (splitArgs_sep_free s Hq) as H2.
  pose proof (splitArgs_quote_free s) as H3.
  rewrite List.Forall_forall in *. intros t Ht.
  split; [apply H1, Ht|]. split; [|apply H3, Ht].
  destruct (H2 t Ht) as [Ha Hb]. apply isSep_false; assumption.
Qed.

Lemma splitArgs_retokenize_witness :
  splitArgs (Join (splitArgs (str " -a=1   b ")) (str " "))
  = splitArgs (str " -a=1   b ").
Proof.
  apply splitArgs_retokenize.
  vm_compute. intros H.
  repeat (apply elem_of_cons in H as [H|H]; [discriminate H|]).
  apply elem_of_nil in H. exact H.
Defined.

(** ** The extension filter: further properties *)

Lemma Split_app (a b : gostring) (sep : ascii) :
  Split (a ++ sep :: b) sep = Split a sep ++ Split b sep.
Proof.
  induction a as [|c a IH]; simpl.
  - rewrite Ascii.eqb_refl. reflexivity.
  - destruct (Ascii.eqb c sep); [rewrite IH; reflexivity|].
    rewrite IH. pose proof (Split_nonempty a sep) as Hne.
    destruct (Split a sep); [congruence|reflexivity].
Qed.

Lemma getExts_fold (pieces : list gostring) (acc : list gostring) :
  fold_left getExts_step pieces acc = acc ++ fold_left getExts_step pieces [].
Proof.
  revert acc. induction pieces as [|p pieces IH]; intros acc; simpl.
  - rewrite app_nil_r. reflexivity.
  - rewrite (IH (getExts_step acc p)), (IH (getExts_step [] p)).
    rewrite app_assoc. f_equal.
    unfold getExts_step. destruct (TrimSpace p) as [|c t].
    + rewrite app_nil_r. reflexivity.
    + reflexivity.
Qed.

(** X6: the filter works segment by segment: the entries of [a,b] are
    those of [a] followed by those of [b], in order, repeats kept. *)
Theorem getExts_compose (a b : gostring) :
  getExts (a ++ "," :: b) = getExts a ++ getExts b.
Proof.
  unfold getExts. rewrite Split_app, fold_left_app. apply getExts_fold.
Qed.

(** X7: every entry of the filter starts with a dot, is its own trimming
    and holds no comma; in particular no entry is empty. *)
Theorem getExts_entries_normal (extString : gostring) :
  Forall (fun e => (exists t, e = "." :: t) /\ TrimSpace e = e /\ ("," ∉ e))
         (getExts extString).
Proof.
  eapply List.Forall_impl; [|apply getExts_entries].
  intros e (Hd & Ht & Hc). split; [exact Hd|].
  split; [apply trimmed_TrimSpace, Ht|exact Hc].
Qed.

(** ** The path expander: further properties *)

(** X8: with the recursive flag no path of the result holds the substring
    [/.], whatever the roots and the trees are. *)
Theorem recursivePaths_no_hidden (h : host) (paths : list gostring) :
  Forall unhidden (fst (recursivePaths h true paths)).
Proof. apply recursivePaths_loop_unhidden. constructor. Qed.

Lemma recursivePaths_loop_error (h : host) (paths acc : list gostring) (e : gostring) :
  snd (recursivePaths_loop h paths acc) = Some e ->
  fst (recursivePaths_loop h paths acc) = [].
Proof.
  rewrite recursivePaths_loop_acc.
  destruct (recursivePaths_loop h paths []) as [r [e'|]]; [reflexivity|discriminate].
Qed.

(** X9: the expansion fails as a whole: when it returns an error the
    result is empty, the paths collected before the error are dropped; and
    it can only fail with the recursive flag. *)
Theorem recursivePaths_fail_fast (h : host) (recursive : bool)
    (paths : list gostring) (e : gostring) :
  snd (recursivePaths h recursive paths) = Some e ->
  recursive = true /\ fst (recursivePaths h recursive paths) = [].
Proof.
  destruct recursive; [|discriminate].
  intros H. split; [reflexivity|].
  unfold recursivePaths in *. simpl in *.
  eapply recursivePaths_loop_error, H.
Qed.

Lemma recursivePaths_fail_fast_witness :
  recursivePaths host_locked true [str "/home/u/proj"]
  = ([], Some (str "permission denied")).
Proof.
  pose proof (recursivePaths_fail_fast host_locked true [str "/home/u/proj"]
                (str "permission denied")) as H.
  destruct H as [_ H]; [vm_compute; reflexivity|].
  destruct (recursivePaths host_locked true [str "/home/u/proj"]) as [r e] eqn:E.
  simpl in H. subst r.
  assert (He : e = Some (str "permission denied")).
  { change e with (snd ([] : list gostring, e)). rewrite <- E.
    vm_compute. reflexivity. }
  rewrite He. reflexivity.
Defined.

(** X10: the roots are expanded one after the other: the result for
    [p1 ++ p2] is the error of [p1] if it has one (no root of [p2] is
    walked), else the error of [p2], else the paths of [p1] followed by the
    paths of [p2]. *)
Theorem recursivePaths_roots_compose (h : host) (p1 p2 : list gostring) :
  recursivePaths h true (p1 ++ p2)
  = match recursivePaths h true p1 with
    | (_, Some e) => ([], Some e)
    | (r1, None) =>
        match recursivePaths h true p2 with
        | (_, Some e) => ([], Some e)
        | (r2, None) => (r1 ++ r2, None)
        end
    end.
Proof.
  unfold recursivePaths. simpl.
  rewrite recursivePaths_loop_app.
  destruct (recursivePaths_loop h p1 []) as [r1 [e1|]]; [reflexivity|].
  apply recursivePaths_loop_acc.
Qed.

(** X11: when the expansion succeeds, a root that is a directory and whose
    path passes the test for [/.] is itself in the result. *)
Theorem recursivePaths_keeps_root (h : host) (paths : list gostring)
    (root : gostring) (entries : list (gostring * node)) :
  root ∈ paths ->
  tree h root = Directory entries ->
  unhidden root ->
  snd (recursivePaths h true paths) = None ->
  root ∈ fst (recursivePaths h true paths).
Proof.
  intros Hin Ht Hu Hok.
  apply list_elem_of_split in Hin as (l1 & l2 & ->).
  unfold recursivePaths in *. cbn [negb] in *.
  rewrite recursivePaths_loop_app in *.
  destruct (recursivePaths_loop h l1 []) as [r1 [e1|]]; [discriminate Hok|].
  rewrite recursivePaths_loop_acc in *.
  cbn [recursivePaths_loop] in *. rewrite Ht in *.
  destruct (Walk_directory_root root entries Hu) as [more Hm].
  destruct (Walk root (Directory entries) []) as [r [e|]]; [discriminate Hok|].
  simpl in Hm. subst r.
  rewrite recursivePaths_loop_acc in *.
  destruct (recursivePaths_loop h l2 []) as [r2 [e2|]]; [discriminate Hok|].
  cbn [fst]. apply elem_of_app. right. left.
Qed.

Lemma recursivePaths_keeps_root_witness :
  str "/home/u/proj" ∈ fst (recursivePaths host_proj true [str "/home/u/proj"]).
Proof.
  apply (recursivePaths_keeps_root host_proj [str "/home/u/proj"]
           (str "/home/u/proj")
           [(str ".git", Directory [(str "objects", Directory [])]);
            (str "main.go", File); (str "src", Directory [])]).
  - left.
  - reflexivity.
  - vm_compute. reflexivity.
  - vm_compute. reflexivity.
Defined.

(** ** Output naming: further properties *)

Lemma untilSeparator_free (s : gostring) : Separator ∉ untilSeparator s.
Proof.
  induction s as [|c s IH]; simpl; [apply not_elem_of_nil|].
  destruct (Ascii.eqb c Separator) eqn:E; [apply not_elem_of_nil|].
  apply Ascii.eqb_neq in E. intros H.
  apply elem_of_cons in H as [H|H]; [congruence|auto].
Qed.

(** The base name is the separator alone or holds none. *)
Lemma Base_cases (path : gostring) :
  Base path = [Separator] \/ Separator ∉ Base path.
Proof.
  unfold Base. destruct path as [|c path].
  - right. intros H.
    apply elem_of_cons in H as [H|H]; [discriminate H|].
    apply elem_of_nil in H. exact H.
  - pose proof (untilSeparator_free (dropSeparators (rev (c :: path)))) as Hf.
    destruct (rev (untilSeparator (dropSeparators (rev (c :: path)))))
      as [|x l] eqn:E; [left; reflexivity|].
    right. intros H. apply Hf. rewrite <- E in H.
    apply list_elem_of_In. apply list_elem_of_In in H.
    apply in_rev in H. exact H.
Qed.

Lemma IsAbs_app (p q : gostring) : IsAbs p = true -> IsAbs (p ++ q) = true.
Proof. destruct p as [|c p]; [discriminate|]. intros H. exact H. Qed.

(** X12: with an absolute [wd], an output name without a path separator
    (or none at all) and an executable suffix without one, [getAppName]
    does not fail, whatever [os.Getwd] does, and the name it returns is
    absolute. *)
Theorem getAppName_bare_name (h : host) (outputName wd : gostring) :
  IsAbs wd = true ->
  Separator ∉ outputName ->
  Separator ∉ GOEXE h ->
  exists name, getAppName h outputName wd = (name, None) /\ IsAbs name = true.
Proof.
  intros Hwd Ho Hg. unfold getAppName.
  set (n1 := if decide (outputName = []) then Base wd else outputName).
  assert (H1 : n1 = [Separator] \/ Separator ∉ n1).
  { unfold n1. destruct (decide (outputName = [])); [apply Base_cases|right; exact Ho]. }
  set (n2 := if negb (bool_decide (GOEXE h = [])) && negb (HasSuffix n1 (GOEXE h))
             then n1 ++ GOEXE h else n1).
  assert (H2 : IsAbs n2 = true \/ Separator ∉ n2).
  { unfold n2. destruct H1 as [-> | H1].
    - left. destruct (_ && _); reflexivity.
    - right. destruct (_ && _); [|exact H1].
      intros H. apply elem_of_app in H as [H|H]; auto. }
  change "/" with Separator. rewrite orb_diag, IndexByte_neg.
  match goal with
  | |- context [Abs h ?x] => set (n3 := x)
  end.
  assert (H3 : IsAbs n3 = true).
  { unfold n3. destruct H2 as [H2|H2].
    - rewrite bool_decide_eq_true_2; [exact H2|].
      destruct n2 as [|c n2]; [discriminate|].
      unfold IsAbs in H2. simpl in H2. rewrite andb_true_r in H2.
      apply Ascii.eqb_eq in H2. subst c. left.
    - rewrite bool_decide_eq_false_2 by exact H2. cbn [negb].
      destruct wd as [|c wd]; [discriminate|].
      unfold Join2. apply Clean_rooted.
      apply (IsAbs_app (c :: wd)). exact Hwd. }
  unfold Abs. rewrite H3. exists (Clean n3).
  split; [reflexivity|apply Clean_rooted, H3].
Qed.

Lemma getAppName_bare_name_witness :
  exists name, getAppName host_nowd (str "app") (str "/srv/proj") = (name, None)
               /\ IsAbs name = true.
Proof.
  apply getAppName_bare_name.
  - reflexivity.
  - vm_compute. intros H.
    repeat (apply elem_of_cons in H as [H|H]; [discriminate H|]).
    apply elem_of_nil in H. exact H.
  - apply not_elem_of_nil.
Defined.

(** ** Build: further properties *)

Lemma startup_logs_sends (b : builder) :
  Forall (fun ev => watching ev = false) (startup_logs b).
Proof.
  unfold startup_logs. repeat constructor. destruct (b_exts b); reflexivity.
Qed.

Lemma watching_not_in_logs (b : builder) (ev : event) :
  watching ev = true -> ev ∉ startup_logs b.
Proof.
  intros Hw Hin. pose proof (startup_logs_sends b) as H.
  rewrite List.Forall_forall in H. apply list_elem_of_In in Hin.
  rewrite (H ev Hin) in Hw. discriminate.
Qed.

Section BuildMore.
Variable initWatcher : builder -> list gostring -> error.
Variable h : host.
Variables mainFiles outputName : gostring.
Variable flags : list (gostring * gostring).
Variable exts : gostring.
Variable recursive : bool.
Variable appArgs : gostring.

Local Abbreviation run :=
  (run_Build initWatcher h mainFiles outputName flags exts recursive appArgs).

Local Abbreviation builder_of appName :=
  (Builder (getExts exts) appName (Dir appName) (splitArgs appArgs)
           (goCmdArgs appName flags mainFiles)).

(** The ways a call can go, with what it has done by its end. *)
Lemma run_Build_cases (roots : list gostring) :
  (trace (fst (run roots)) = [] /\ deferred (fst (run roots)) = [])
  \/ exists d0 rest wd appName,
       roots = d0 :: rest
       /\ Abs h d0 = (wd, None)
       /\ getAppName h outputName wd = (appName, None)
       /\ dir (fst (run roots)) = wd :: rest
       /\ ((trace (fst (run roots)) = startup_logs (builder_of appName)
            /\ deferred (fst (run roots)) = [])
           \/ exists paths tail,
                recursivePaths h recursive (wd :: rest) = (paths, None)
                /\ trace (fst (run roots))
                   = startup_logs (builder_of appName)
                     ++ InitWatcher (builder_of appName) paths :: tail
                /\ (tail = [] \/ tail = [Watch (builder_of appName);
                                         GoBuild (builder_of appName)])).
Proof.
  rewrite run_Build_eq.
  destruct roots as [|d0 rest]; [left; split; reflexivity|].
  destruct (Abs h d0) as [wd [e|]] eqn:Ea; [left; split; reflexivity|].
  destruct (getAppName h outputName wd) as [appName [e|]] eqn:Eg;
    [left; split; reflexivity|].
  right. exists d0, rest, wd, appName.
  split; [reflexivity|]. split; [exact Ea|]. split; [exact Eg|].
  cbv zeta.
  destruct (recursivePaths h recursive (wd :: rest)) as [paths [e|]] eqn:Er.
  { split; [reflexivity|]. left. split; reflexivity. }
  destruct (initWatcher _ paths) as [e|].
  - split; [reflexivity|]. right. exists paths, [].
    split; [reflexivity|]. split; [reflexivity|]. left. reflexivity.
  - split; [reflexivity|]. right. exists paths, [Watch (builder_of appName);
                                                  GoBuild (builder_of appName)].
    split; [reflexivity|]. split; [reflexivity|]. right. reflexivity.
Qed.

(** Where an [InitWatcher] event is in the trace, and with what. *)
Lemma run_Build_InitWatcher (roots : list gostring) (b : builder)
    (paths : list gostring) :
  InitWatcher b paths ∈ trace (fst (run roots)) ->
  exists d0 rest wd appName,
    roots = d0 :: rest
    /\ Abs h d0 = (wd, None)
    /\ getAppName h outputName wd = (appName, None)
    /\ dir (fst (run roots)) = wd :: rest
    /\ b = builder_of appName
    /\ recursivePaths h recursive (wd :: rest) = (paths, None).
Proof.
  intros Hin.
  destruct (run_Build_cases roots)
    as [[Ht _]|(d0 & rest & wd & appName & -> & Ha & Hg & Hd & Hc)].
  { rewrite Ht in Hin. apply elem_of_nil in Hin. contradiction. }
  exists d0, rest, wd, appName.
  split; [reflexivity|]. split; [exact Ha|]. split; [exact Hg|].
  split; [exact Hd|].
  destruct Hc as [[Ht _]|(paths' & tail & Hr & Ht & Htail)]; rewrite Ht in Hin.
  { apply watching_not_in_logs in Hin; [contradiction|reflexivity]. }
  apply elem_of_app in Hin as [Hin|Hin].
  { apply watching_not_in_logs in Hin; [contradiction|reflexivity]. }
  apply elem_of_cons in Hin as [Hin|Hin].
  - injection Hin as -> ->. split; [reflexivity|exact Hr].
  - destruct Htail as [-> | ->].
    + apply elem_of_nil in Hin. contradiction.
    + repeat (apply elem_of_cons in Hin as [Hin|Hin]; [discriminate Hin|]).
      apply elem_of_nil in Hin. contradiction.
Qed.
End BuildMore.

(** X13: the deferred [w.Close()] never runs: no call of [Build] closes
    the watcher it has set up, since no call returns behind the [defer]. *)
Theorem Build_never_closes_watcher
    (initWatcher : builder -> list gostring -> error) (h : host)
    (mainFiles outputName : gostring) (flags : list (gostring * gostring))
    (exts : gostring) (recursive : bool) (appArgs : gostring)
    (roots : list gostring) :
  CloseWatcher ∉ trace (fst (run_Build initWatcher h mainFiles outputName flags
                                       exts recursive appArgs roots)).
Proof.
  intros Hin.
  destruct (run_Build_cases initWatcher h mainFiles outputName flags exts
              recursive appArgs roots)
    as [[Ht _]|(d0 & rest & wd & appName & _ & _ & _ & _ & Hc)].
  { rewrite Ht in Hin. apply elem_of_nil in Hin. exact Hin. }
  destruct Hc as [[Ht _]|(paths & tail & _ & Ht & Htail)]; rewrite Ht in Hin.
  { apply watching_not_in_logs in Hin; [exact Hin|reflexivity]. }
  apply elem_of_app in Hin as [Hin|Hin].
  { apply watching_not_in_logs in Hin; [exact Hin|reflexivity]. }
  apply elem_of_cons in Hin as [Hin|Hin]; [discriminate Hin|].
  destruct Htail as [-> | ->].
  - apply elem_of_nil in Hin. exact Hin.
  - repeat (apply elem_of_cons in Hin as [Hin|Hin]; [discriminate Hin|]).
    apply elem_of_nil in Hin. exact Hin.
Qed.

(** X14: the paths that [Build] hands to [initWatcher] are the expansion
    of [dir] as [Build] leaves it, the first root made absolute: without
    the recursive flag they are [dir] itself, with it none of them holds
    [/.]. *)
Theorem Build_watcher_paths
    (initWatcher : builder -> list gostring -> error) (h : host)
    (mainFiles outputName : gostring) (flags : list (gostring * gostring))
    (exts : gostring) (recursive : bool) (appArgs : gostring)
    (roots : list gostring) (b : builder) (paths : list gostring) :
  let r := run_Build initWatcher h mainFiles outputName flags exts
                     recursive appArgs roots in
  InitWatcher b paths ∈ trace (fst r) ->
  recursivePaths h recursive (dir (fst r)) = (paths, None)
  /\ (recursive = false -> paths = dir (fst r))
  /\ (recursive = true -> Forall unhidden paths).
Proof.
  intros r Hin. unfold r in *.
  apply run_Build_InitWatcher in Hin
    as (d0 & rest & wd & appName & -> & _ & _ & Hd & _ & Hr).
  rewrite Hd. split; [exact Hr|]. split.
  - intros ->. simpl in Hr. injection Hr as <-. reflexivity.
  - intros ->. pose proof (recursivePaths_loop_unhidden h (wd :: rest) []) as H.
    unfold recursivePaths in Hr. simpl negb in Hr. cbv iota in Hr.
    rewrite Hr in H. apply H. constructor.
Qed.

Lemma Build_watcher_paths_witness :
  recursivePaths host_proj false (dir (fst call_proj)) = ([str "/home/u/proj"], None)
  /\ [str "/home/u/proj"] = dir (fst call_proj).
Proof.
  destruct (Build_watcher_paths (fun _ _ => None) host_proj (str "") (str "") []
              (str "go") false (str "") [str "."] builder_proj [str "/home/u/proj"])
    as (H1 & H2 & _).
  - apply list_elem_of_In. vm_compute. do 3 right. left. reflexivity.
  - split; [exact H1|apply H2; reflexivity].
Defined.

Lemma getAppName_IsAbs (h : host) (outputName wd name : gostring) :
  IsAbs (fst (Getwd h)) = true ->
  getAppName h outputName wd = (name, None) -> IsAbs name = true.
Proof.
  intros Hwd. unfold getAppName.
  match goal with
  | |- context [Abs h ?x] => generalize x
  end.
  intros n3 H. rewrite Abs_result in H. eapply Abs_IsAbs; eassumption.
Qed.

(** X15: the builder that [Build] sets up: its output path is absolute
    (the working directory of the process being one), it is the argument
    behind [-o] of the compiler, and the working directory of the program
    is the directory of the output path. *)
Theorem Build_builder_output
    (initWatcher : builder -> list gostring -> error) (h : host)
    (mainFiles outputName : gostring) (flags : list (gostring * gostring))
    (exts : gostring) (recursive : bool) (appArgs : gostring)
    (roots : list gostring) (b : builder) (paths : list gostring) :
  IsAbs (fst (Getwd h)) = true ->
  InitWatcher b paths ∈ trace (fst (run_Build initWatcher h mainFiles outputName
                                              flags exts recursive appArgs roots)) ->
  IsAbs (b_appName b) = true
  /\ b_wd b = Dir (b_appName b)
  /\ exists tail, b_goCmdArgs b = str "build" :: str "-o" :: b_appName b :: tail.
Proof.
  intros Hwd Hin.
  apply run_Build_InitWatcher in Hin
    as (d0 & rest & wd & appName & _ & _ & Hg & _ & -> & _).
  cbn [b_appName b_wd b_goCmdArgs].
  split; [eapply getAppName_IsAbs; eassumption|]. split; [reflexivity|].
  rewrite goCmdArgs_flat. eexists. reflexivity.
Qed.

Lemma Build_builder_output_witness :
  IsAbs (b_appName builder_proj) = true
  /\ b_wd builder_proj = Dir (b_appName builder_proj)
  /\ exists tail,
       b_goCmdArgs builder_proj
       = str "build" :: str "-o" :: b_appName builder_proj :: tail.
Proof.
  apply (Build_builder_output (fun _ _ => None) host_proj (str "") (str "") []
           (str "go") false (str "") [str "."] builder_proj [str "/home/u/proj"]).
  - reflexivity.
  - apply list_elem_of_In. vm_compute. do 3 right. left. reflexivity.
Defined.


(** ** filepath.Clean on rooted paths *)

Lemma Join_snoc (es : list gostring) (e sep : gostring) :
  Join (es ++ [e]) sep
  = match es with [] => e | _ => Join es sep ++ sep ++ e end.
Proof.
  induction es as [|x es IH]; [reflexivity|].
  destruct es as [|y es]; [reflexivity|].
  change (Join ((x :: y :: es) ++ [e]) sep)
    with (x ++ sep ++ Join ((y :: es) ++ [e]) sep).
  rewrite IH.
  change (Join (x :: y :: es) sep) with (x ++ sep ++ Join (y :: es) sep).
  rewrite <- !app_assoc. reflexivity.
Qed.

Lemma render_snoc (es : list gostring) (e : gostring) :
  render (es ++ [e])
  = match es with [] => [Separator] | _ => render es ++ [Separator] end ++ e.
Proof.
  unfold render. rewrite Join_snoc. destruct es as [|x es]; [reflexivity|].
  simpl. rewrite <- app_assoc. reflexivity.
Qed.

Lemma render_length (es : list gostring) :
  Forall real es -> (length (render es) = 1 <-> es = []).
Proof.
  intros H. split; [|intros ->; reflexivity].
  destruct es as [|x es]; [reflexivity|].
  inversion H as [|? ? (Hx & _) _]; subst.
  unfold render. destruct x as [|c x]; [congruence|].
  destruct es; simpl; intros E; discriminate E.
Qed.

Lemma nth_not_sep (x : gostring) (i : nat) :
  Separator ∉ x -> i < length x -> nth i x Separator <> Separator.
Proof.
  intros Hx Hi E. apply Hx. rewrite <- E.
  apply list_elem_of_In, nth_In, Hi.
Qed.

(** Backtracking runs over bytes that are no separator and stops at a
    separator or at [dotdot]. *)
Lemma backtrack_run (o : gostring) (dd lo k : nat) :
  (forall w, lo < w <= lo + k -> nth w o Separator <> Separator) ->
  nth lo o Separator = Separator \/ lo <= dd ->
  dd <= lo ->
  backtrack o dd (lo + k) = lo.
Proof.
  intros Hrun Hstop Hdd. induction k as [|k IH].
  - rewrite Nat.add_0_r. destruct lo as [|lo]; [reflexivity|]. simpl.
    destruct Hstop as [E|E].
    + rewrite E, Ascii.eqb_refl, andb_false_r. reflexivity.
    + replace (Nat.ltb dd (S lo)) with false; [reflexivity|].
      symmetry. apply Nat.ltb_ge. exact E.
  - rewrite Nat.add_succ_r. simpl.
    replace (Nat.ltb dd (S (lo + k))) with true
      by (symmetry; apply Nat.ltb_lt; lia).
    assert (E : Ascii.eqb (nth (S (lo + k)) o Separator) Separator = false).
    { apply Ascii.eqb_neq, Hrun. lia. }
    rewrite E. simpl. apply IH. intros w Hw. apply Hrun. lia.
Qed.

(** [..] on a rooted buffer drops its last element. *)
Lemma backtrack_render (es : list gostring) (x : gostring) :
  Forall real es -> real x ->
  firstn (backtrack (render (es ++ [x])) 1 (length (render (es ++ [x])) - 1))
         (render (es ++ [x]))
  = render es.
Proof.
  intros Hes (Hne & _ & _ & Hsep). rewrite render_snoc.
  destruct es as [|y es].
  - simpl app.
    replace (length (Separator :: x) - 1) with (1 + (length x - 1))
      by (destruct x; [congruence|simpl; lia]).
    rewrite backtrack_run; [reflexivity| |right; lia|lia].
    intros w Hw. destruct w as [|w]; [lia|]. simpl.
    apply nth_not_sep; [exact Hsep|]. destruct x; [congruence|simpl in *; lia].
  - set (p := render (y :: es)).
    replace (length ((p ++ [Separator]) ++ x) - 1) with (length p + length x)
      by (rewrite !length_app; simpl; lia).
    rewrite backtrack_run.
    + rewrite <- app_assoc, firstn_app, firstn_all, Nat.sub_diag, firstn_O.
      apply app_nil_r.
    + intros w Hw. rewrite <- app_assoc, app_nth2 by lia.
      remember (w - length p) as j eqn:Ej.
      destruct j as [|j]; [lia|]. cbn [app nth].
      apply nth_not_sep; [exact Hsep|lia].
    + left. rewrite <- app_assoc, app_nth2 by lia.
      rewrite Nat.sub_diag. reflexivity.
    + unfold p, render. cbn [length]. lia.
Qed.

Lemma stack_elem_real (es : list gostring) (e : gostring) :
  Forall real es -> Separator ∉ e -> Forall real (stack_elem es e).
Proof.
  intros Hes He. unfold stack_elem.
  destruct (decide (e = [])); [exact Hes|].
  destruct (decide (e = str ".")); [exact Hes|].
  destruct (decide (e = str "..")).
  - destruct es as [|x es] using rev_ind; [constructor|].
    rewrite removelast_last. apply Forall_app in Hes as [Hes _]. exact Hes.
  - apply Forall_app. split; [exact Hes|].
    constructor; [|constructor]. repeat split; assumption.
Qed.

(** One element in the loop of [Clean], on a rooted buffer. *)
Lemma Clean_elem_render (es : list gostring) (e : gostring) :
  Forall real es -> Separator ∉ e ->
  Clean_elem true (CleanBuf (render es) 1) e
  = CleanBuf (render (stack_elem es e)) 1.
Proof.
  intros Hes He. unfold Clean_elem, stack_elem.
  destruct (decide (e = [])); [reflexivity|].
  destruct (decide (e = str ".")); [reflexivity|].
  destruct (decide (e = str "..")).
  - cbn [out dotdot negb].
    destruct es as [|x es] using rev_ind.
    + reflexivity.
    + clear IHes. apply Forall_app in Hes as [Hes Hx].
      inversion Hx as [|? ? Hx' _]; subst.
      rewrite removelast_last.
      assert (Hlen : Nat.ltb 1 (length (render (es ++ [x]))) = true).
      { apply Nat.ltb_lt. rewrite render_snoc, length_app.
        destruct Hx' as (Hne & _). destruct x; [congruence|].
        destruct es; simpl; lia. }
      rewrite Hlen, backtrack_render by assumption. reflexivity.
  - cbn [out dotdot negb andb orb]. rewrite orb_false_r. f_equal.
    rewrite render_snoc. destruct es as [|y es]; [reflexivity|].
    assert (Hlen : Nat.eqb (length (render (y :: es))) 1 = false).
    { apply Nat.eqb_neq. intros E. apply render_length in E; [discriminate|exact Hes]. }
    rewrite Hlen. reflexivity.
Qed.

Lemma fold_Clean_render (pieces : list gostring) (es : list gostring) :
  Forall (fun e => Separator ∉ e) pieces -> Forall real es ->
  fold_left (Clean_elem true) pieces (CleanBuf (render es) 1)
  = CleanBuf (render (fold_left stack_elem pieces es)) 1
  /\ Forall real (fold_left stack_elem pieces es).
Proof.
  intros Hp. revert es. induction Hp as [|e pieces He _ IH]; intros es Hes; simpl.
  - split; [reflexivity|exact Hes].
  - rewrite Clean_elem_render by assumption.
    apply IH, stack_elem_real; assumption.
Qed.

(** [Clean] of a rooted path is the path of the elements that remain. *)
Lemma Clean_abs (path : gostring) :
  IsAbs path = true ->
  Clean path = render (elements path) /\ Forall real (elements path).
Proof.
  intros Hp. destruct path as [|c path]; [discriminate|].
  unfold IsAbs in Hp. simpl in Hp. rewrite andb_true_r in Hp.
  apply Ascii.eqb_eq in Hp. subst c.
  destruct (fold_Clean_render (Split ("/" :: path) Separator) [])
    as [E Hr]; [apply Split_pieces|constructor|].
  split; [|exact Hr].
  assert (Ec : Clean ("/" :: path)
               = match out (fold_left (Clean_elem true) (Split ("/" :: path) Separator)
                              (CleanBuf [Separator] 1)) with
                 | [] => str "."
                 | o => o
                 end) by reflexivity.
  rewrite Ec. change (CleanBuf [Separator] 1) with (CleanBuf (render []) 1).
  rewrite E. reflexivity.
Qed.

Lemma fold_stack_real (es acc : list gostring) :
  Forall real es -> fold_left stack_elem es acc = acc ++ es.
Proof.
  intros H. revert acc. induction H as [|e es (H1 & H2 & H3 & _) _ IH]; intros acc; simpl.
  - rewrite app_nil_r. reflexivity.
  - unfold stack_elem at 2.
    destruct (decide (e = [])); [congruence|].
    destruct (decide (e = str ".")); [congruence|].
    destruct (decide (e = str "..")); [congruence|].
    rewrite IH, <- app_assoc. reflexivity.
Qed.

(** The elements of a clean rooted path are its elements. *)
Lemma elements_render (es : list gostring) :
  Forall real es -> elements (render es) = es.
Proof.
  intros H. unfold elements, render.
  change (Split (Separator :: Join es [Separator]) Separator)
    with ([] :: Split (Join es [Separator]) Separator).
  destruct es as [|e es]; [reflexivity|].
  rewrite Split_Join.
  - simpl. unfold stack_elem at 2. simpl. apply (fold_stack_real (e :: es) []), H.
  - discriminate.
  - eapply List.Forall_impl; [|exact H]. intros x (_ & _ & _ & Hx). exact Hx.
Qed.

(** [Clean] leaves a cleaned rooted path as it is. *)
Lemma Clean_idem_abs (path : gostring) :
  IsAbs path = true -> Clean (Clean path) = Clean path.
Proof.
  intros Hp. destruct (Clean_abs path Hp) as [E Hr].
  rewrite E. destruct (Clean_abs (render (elements path))) as [E' _]; [reflexivity|].
  rewrite E', elements_render by exact Hr. reflexivity.
Qed.

(** A proper element behind a rooted path is one more element. *)
Lemma elements_snoc (path name : gostring) :
  real name -> elements (path ++ Separator :: name) = elements path ++ [name].
Proof.
  intros (H1 & H2 & H3 & H4). unfold elements.
  rewrite Split_app, fold_left_app, (Split_no_sep name) by exact H4.
  simpl. unfold stack_elem at 1.
  destruct (decide (name = [])); [congruence|].
  destruct (decide (name = str ".")); [congruence|].
  destruct (decide (name = str "..")); [congruence|].
  reflexivity.
Qed.

(** [filepath.Join] of a rooted path and a proper element. *)
Lemma Join2_abs (path name : gostring) :
  IsAbs path = true -> real name ->
  Join2 path name = render (elements path ++ [name])
  /\ Forall real (elements path ++ [name]).
Proof.
  intros Hp Hn. destruct path as [|c path]; [discriminate|].
  unfold Join2.
  destruct (Clean_abs ((c :: path) ++ [Separator] ++ name)) as [E Hr];
    [exact Hp|].
  change ((c :: path) ++ [Separator] ++ name)
    with ((c :: path) ++ Separator :: name) in *.
  rewrite elements_snoc in * by exact Hn.
  split; assumption.
Qed.

Lemma fromSeparator_app (x y : gostring) :
  Separator ∉ x -> fromSeparator (x ++ y) = fromSeparator y.
Proof.
  induction x as [|c x IH]; intros H; [reflexivity|]. simpl.
  assert (E : Ascii.eqb c Separator = false).
  { apply Ascii.eqb_neq. intros ->. apply H. left. }
  rewrite E. apply IH. intros Hin. apply H. right. exact Hin.
Qed.

Lemma elements_trailing (path : gostring) :
  elements (path ++ [Separator]) = elements path.
Proof.
  unfold elements. rewrite Split_app, fold_left_app. reflexivity.
Qed.

(** [filepath.Dir] of a clean rooted path drops its last element. *)
Lemma Dir_render (es : list gostring) (name : gostring) :
  Forall real es -> real name -> Dir (render (es ++ [name])) = render es.
Proof.
  intros Hes Hn. destruct Hn as (_ & _ & _ & Hsep).
  assert (Hrev : Separator ∉ rev name).
  { intros H. apply Hsep. apply list_elem_of_In. apply list_elem_of_In in H.
    apply in_rev. exact H. }
  unfold Dir. rewrite render_snoc, rev_app_distr, fromSeparator_app by exact Hrev.
  destruct es as [|y es].
  - reflexivity.
  - rewrite rev_app_distr. cbn [rev app fromSeparator].
    rewrite Ascii.eqb_refl.
    change (Separator :: rev (render (y :: es)))
      with (rev [Separator] ++ rev (render (y :: es))).
    rewrite <- rev_app_distr, rev_involutive.
    destruct (Clean_abs (render (y :: es) ++ [Separator])) as [E _]; [reflexivity|].
    rewrite E, elements_trailing, elements_render by exact Hes. reflexivity.
Qed.

(** What [filepath.Abs] returns is rooted and clean, the working directory
    of the process being rooted. *)
Lemma Abs_clean (h : host) (path wd : gostring) :
  IsAbs (fst (Getwd h)) = true -> Abs h path = (wd, None) ->
  IsAbs wd = true /\ Clean wd = wd.
Proof.
  intros Hcwd. unfold Abs. destruct (IsAbs path) eqn:Ep.
  - intros [= <-]. split; [apply Clean_rooted, Ep|apply Clean_idem_abs, Ep].
  - destruct (Getwd h) as [cwd [e|]]; [discriminate|]. intros [= <-].
    simpl in Hcwd. destruct cwd as [|c cwd]; [discriminate|].
    unfold Join2.
    split; [apply Clean_rooted, Hcwd|apply Clean_idem_abs, Hcwd].
Qed.

(** The output for a name without path information. *)
Lemma getAppName_placed (h : host) (outputName wd : gostring) :
  let name := if HasSuffix outputName (GOEXE h) then outputName
              else outputName ++ GOEXE h in
  IsAbs wd = true ->
  outputName <> [] ->
  real name ->
  getAppName h outputName wd
  = (match elements wd with
     | [] => [Separator]
     | _ => Clean wd ++ [Separator]
     end ++ name, None)
  /\ Dir (fst (getAppName h outputName wd)) = Clean wd.
Proof.
  intros name Hwd Ho Hn.
  assert (E : getAppName h outputName wd = (render (elements wd ++ [name]), None)).
  { unfold getAppName.
    destruct (decide (outputName = [])); [congruence|].
    assert (E2 : (if negb (bool_decide (GOEXE h = []))
                     && negb (HasSuffix outputName (GOEXE h))
                  then outputName ++ GOEXE h else outputName) = name).
    { unfold name. destruct (GOEXE h) as [|c g].
      - rewrite HasSuffix_empty. reflexivity.
      - rewrite bool_decide_eq_false_2 by discriminate.
        destruct (HasSuffix outputName (c :: g)); reflexivity. }
    rewrite E2. change "/" with Separator. rewrite orb_diag, IndexByte_neg.
    destruct Hn as (H1 & H2 & H3 & H4).
    rewrite bool_decide_eq_false_2 by exact H4. cbn [negb].
    destruct (Join2_abs wd name Hwd) as [Ej Hr]; [repeat split; assumption|].
    rewrite Ej. unfold Abs.
    replace (IsAbs (render (elements wd ++ [name]))) with true by reflexivity.
    destruct (Clean_abs (render (elements wd ++ [name]))) as [Ec _]; [reflexivity|].
    rewrite Ec, elements_render by exact Hr. reflexivity. }
  destruct (Clean_abs wd Hwd) as [Ew Hr].
  rewrite E. cbn [fst]. split.
  - f_equal. rewrite render_snoc, Ew. destruct (elements wd); reflexivity.
  - rewrite Dir_render by assumption. symmetry. exact Ew.
Qed.

(** X18: an output name without path information is put into [wd]: with
    an absolute [wd] and a name that, the executable suffix appended, is a
    proper path element, [getAppName] returns the cleaned [wd] followed by
    that name, and the directory of the result is the cleaned [wd]. *)
Theorem getAppName_in_wd (h : host) (outputName wd : gostring) :
  let name := if HasSuffix outputName (GOEXE h) then outputName
              else outputName ++ GOEXE h in
  IsAbs wd = true ->
  outputName <> [] ->
  real name ->
  getAppName h outputName wd
  = (match elements wd with
     | [] => [Separator]
     | _ => Clean wd ++ [Separator]
     end ++ name, None)
  /\ Dir (fst (getAppName h outputName wd)) = Clean wd.
Proof.
  intros name Hwd Ho Hn.
  exact (getAppName_placed h outputName wd Hwd Ho Hn).
Qed.

Lemma getAppName_in_wd_witness :
  getAppName host_exe (str "app") (str "/srv//proj/")
  = (str "/srv/proj/app.exe", None)
  /\ Dir (fst (getAppName host_exe (str "app") (str "/srv//proj/"))) = str "/srv/proj".
Proof.
  destruct (getAppName_in_wd host_exe (str "app") (str "/srv//proj/")) as [H1 H2].
  - reflexivity.
  - discriminate.
  - vm_compute. repeat split; try discriminate.
    intros H. repeat (apply elem_of_cons in H as [H|H]; [discriminate H|]).
    apply elem_of_nil in H. exact H.
  - split; [exact H1|exact H2].
Defined.

(** X19: with an output name without path information the program runs in
    the primary root: the builder's working directory is the first element
    of [dir] as [Build] has overwritten it, and the output path is in that
    directory. *)
Theorem Build_runs_in_primary_root
    (initWatcher : builder -> list gostring -> error) (h : host)
    (mainFiles outputName : gostring) (flags : list (gostring * gostring))
    (exts : gostring) (recursive : bool) (appArgs : gostring)
    (roots : list gostring) (b : builder) (paths : list gostring) :
  let r := run_Build initWatcher h mainFiles outputName flags exts
                     recursive appArgs roots in
  let name := if HasSuffix outputName (GOEXE h) then outputName
              else outputName ++ GOEXE h in
  IsAbs (fst (Getwd h)) = true ->
  outputName <> [] ->
  real name ->
  InitWatcher b paths ∈ trace (fst r) ->
  exists wd rest,
    dir (fst r) = wd :: rest
    /\ b_wd b = wd
    /\ Dir (b_appName b) = wd
    /\ exists sep, b_appName b = wd ++ sep ++ name
                   /\ (sep = [] \/ sep = [Separator]).
Proof.
  intros r name Hcwd Ho Hn Hin. unfold r in *.
  apply run_Build_InitWatcher in Hin
    as (d0 & rest & wd & appName & _ & Ha & Hg & Hd & -> & _).
  destruct (Abs_clean h d0 wd Hcwd Ha) as [Hwd Hclean].
  destruct (getAppName_placed h outputName wd Hwd Ho Hn) as [E1 E2].
  rewrite Hg in E1. injection E1 as E1. rewrite Hg in E2. cbn [fst] in E2.
  rewrite Hclean in *.
  exists wd, rest. cbn [b_wd b_appName].
  split; [exact Hd|]. split; [exact E2|]. split; [exact E2|].
  destruct (Clean_abs wd Hwd) as [Ew _]. rewrite Hclean in Ew.
  destruct (elements wd) as [|e es].
  - exists []. split; [|left; reflexivity]. rewrite E1, Ew. reflexivity.
  - exists [Separator]. split; [|right; reflexivity].
    rewrite E1, <- app_assoc. reflexivity.
Qed.

Lemma Build_runs_in_primary_root_witness :
  exists wd rest,
    dir (fst (run_Build (fun _ _ => None) host_proj (str "") (str "app") []
                        (str "go") false (str "") [str "."])) = wd :: rest
    /\ wd = str "/home/u/proj".
Proof.
  destruct (Build_runs_in_primary_root (fun _ _ => None) host_proj (str "")
              (str "app") [] (str "go") false (str "") [str "."]
              (Builder [str ".go"] (str "/home/u/proj/app") (str "/home/u/proj") []
                       [str "build"; str "-o"; str "/home/u/proj/app"; str "-v"])
              [str "/home/u/proj"])
    as (wd & rest & Hd & Hw & _).
  - reflexivity.
  - discriminate.
  - vm_compute. repeat split; try discriminate.
    intros H. repeat (apply elem_of_cons in H as [H|H]; [discriminate H|]).
    apply elem_of_nil in H. exact H.
  - apply list_elem_of_In. vm_compute. do 3 right. left. reflexivity.
  - exists wd, rest. split; [exact Hd|]. rewrite <- Hw. reflexivity.
Defined.

(** ** The path expander under a clean absolute root *)

Lemma Index_ge (s sub : gostring) : (-1 <= Index s sub)%Z.
Proof.
  induction s as [|c s IH]; simpl.
  - destruct (HasPrefix [] sub); lia.
  - destruct (HasPrefix (c :: s) sub); [lia|].
    destruct (Index s sub <? 0)%Z eqn:E; [lia|].
    apply Z.ltb_ge in E. lia.
Qed.

Lemma Index_neg_cons (c : ascii) (s sub : gostring) :
  (Index (c :: s) sub <? 0)%Z
  = negb (HasPrefix (c :: s) sub) && (Index s sub <? 0)%Z.
Proof.
  simpl. destruct (HasPrefix (c :: s) sub); [reflexivity|].
  destruct (Index s sub <? 0)%Z eqn:E; [reflexivity|].
  apply Z.ltb_ge in E. apply Z.ltb_ge. lia.
Qed.

(** The substring [/.] does not start inside a piece without separator. *)
Lemma Index_hidden_app (e rest : gostring) :
  Separator ∉ e ->
  (Index (e ++ rest) (str "/.") <? 0)%Z = (Index rest (str "/.") <? 0)%Z.
Proof.
  induction e as [|c e IH]; intros H; [reflexivity|].
  change ((c :: e) ++ rest) with (c :: (e ++ rest)).
  rewrite Index_neg_cons, IH.
  - assert (E : Ascii.eqb c "/" = false).
    { apply Ascii.eqb_neq. intros ->. apply H. left. }
    cbn [HasPrefix str list_ascii_of_string]. rewrite E. reflexivity.
  - intros Hin. apply H. right. exact Hin.
Qed.

Lemma render_cons (e : gostring) (es : list gostring) :
  render (e :: es)
  = Separator :: e ++ match es with [] => [] | _ => render es end.
Proof.
  unfold render. destruct es as [|x es]; [simpl; rewrite app_nil_r|]; reflexivity.
Qed.

(** The test of [walk] on a clean rooted path: no element starts with a
    dot. *)
Lemma unhidden_render (es : list gostring) :
  Forall real es ->
  (Index (render es) (str "/.") <? 0)%Z = visible es.
Proof.
  induction 1 as [|e es (Hne & _ & _ & Hsep) Hes IH]; [reflexivity|].
  rewrite render_cons, Index_neg_cons, Index_hidden_app by exact Hsep.
  cbn [visible forallb]. f_equal.
  - destruct e as [|c e]; [congruence|]. reflexivity.
  - destruct es as [|x es]; [reflexivity|exact IH].
Qed.

Lemma walkEntries_flat_map (path : gostring) (entries : list (gostring * node))
    (f : gostring * node -> list gostring) :
  Forall (fun e => forall ret,
            Walk (Join2 path (fst e)) (snd e) ret = (ret ++ f e, None)) entries ->
  forall ret, walkEntries Walk path entries ret = (ret ++ flat_map f entries, None).
Proof.
  induction 1 as [|[name child] entries He _ IH]; intros ret; simpl.
  - rewrite app_nil_r. reflexivity.
  - simpl in He. rewrite He, IH, <- app_assoc. reflexivity.
Qed.

(** Under a clean rooted path a plain tree is walked without error, and
    the walk collects the directories none of whose elements starts with a
    dot. *)
Lemma Walk_plain_tree (n : node) :
  forall (es : list gostring) (ret : list gostring),
    Forall real es -> plain_tree n ->
    Walk (render es) n ret
    = (ret ++ map render (List.filter visible (dirs es n)), None).
Proof.
  revert n. fix IH 1. intros n es ret Hes Hn.
  destruct n as [|entries|e|e]; try contradiction.
  - simpl. rewrite app_nil_r. reflexivity.
  - change (Walk (render es) (Directory entries) ret)
      with (let '(r, _) := walk ret (render es) true None in
            walkEntries Walk (render es) entries r).
    unfold walk. cbn [andb]. rewrite (unhidden_render es Hes).
    assert (Hall : Forall (fun e => forall ret,
                     Walk (Join2 (render es) (fst e)) (snd e) ret
                     = (ret ++ map render
                                   (List.filter visible (dirs (es ++ [fst e]) (snd e))),
                        None)) entries).
    { clear ret. simpl in Hn.
      induction entries as [|[name child] entries IHe]; constructor.
      - destruct Hn as (Hname & Hchild & _). intros ret. cbn [fst snd].
        destruct (Join2_abs (render es) name) as [Ej Hr]; [reflexivity|exact Hname|].
        rewrite elements_render in Ej, Hr by exact Hes.
        rewrite Ej. apply IH; assumption.
      - apply IHe. destruct Hn as (_ & _ & Hn). exact Hn. }
    cbn [dirs List.filter].
    assert (Ef : map render
                   (List.filter visible
                      (flat_map (fun e => dirs (es ++ [fst e]) (snd e)) entries))
                 = flat_map (fun e => map render
                                        (List.filter visible (dirs (es ++ [fst e]) (snd e))))
                            entries).
    { clear. induction entries as [|e entries IHe]; [reflexivity|].
      simpl. rewrite List.filter_app, map_app, IHe. reflexivity. }
    destruct (visible es) eqn:Ev.
    + rewrite (walkEntries_flat_map _ _ _ Hall).
      cbn [map]. rewrite Ef, <- app_assoc. reflexivity.
    + rewrite (walkEntries_flat_map _ _ _ Hall).
      rewrite Ef. reflexivity.
Qed.

(** X20: under a clean absolute root (such as [Build] makes of the primary
    root) whose tree is walked without error, the expansion is exact: the
    result holds the directories of the tree, a directory before what it
    holds, except those with a path element that starts with a dot; so a
    [.git] directory and all below it are left out. *)
Theorem recursivePaths_clean_root (h : host) (root : gostring) :
  IsAbs root = true ->
  Clean root = root ->
  plain_tree (tree h root) ->
  recursivePaths h true [root]
  = (map render (List.filter visible (dirs (elements root) (tree h root))), None).
Proof.
  intros Ha Hc Ht. destruct (Clean_abs root Ha) as [E Hr].
  unfold recursivePaths. cbn [negb recursivePaths_loop].
  rewrite <- Hc at 1. rewrite E.
  rewrite (Walk_plain_tree (tree h root) (elements root) [] Hr Ht).
  reflexivity.
Qed.

Lemma recursivePaths_clean_root_witness :
  recursivePaths host_proj true [str "/home/u/proj"]
  = (map render
         (List.filter visible (dirs (elements (str "/home/u/proj"))
                               (tree host_proj (str "/home/u/proj")))), None)
  /\ map render
         (List.filter visible (dirs (elements (str "/home/u/proj"))
                               (tree host_proj (str "/home/u/proj"))))
     = [str "/home/u/proj"; str "/home/u/proj/src"].
Proof.
  split.
  - apply recursivePaths_clean_root.
    + reflexivity.
    + vm_compute. reflexivity.
    + assert (Hreal : forall s : gostring,
                 s <> [] -> s <> str "." -> s <> str ".." ->
                 Forall (fun c => c <> Separator) s -> real s).
      { intros s H1 H2 H3 H4. repeat split; try assumption.
        intros Hin. rewrite List.Forall_forall in H4.
        apply list_elem_of_In in Hin. exact (H4 _ Hin eq_refl). }
      simpl. repeat split;
        apply Hreal; try discriminate; repeat constructor; discriminate.
  - vm_compute. reflexivity.
Defined.
